(** * onto-nexus: the knowledge-graph merge, the filtered view, the
      background queue and the intel feed

    Embedded from the TypeScript sources:
    - the types ([NodeType], [GraphNode], [GraphLink], [NewsArticle],
      [KnowledgeGraphData]) from src/unnamed/part_000;
    - the service functions ([fetchGlobalIntel], [generateDomainOntology],
      [extractKnowledgeGraph], [performShaclScan]) from
      src/services/geminiService.ts, lines 1 to 529;
    - the [App] component of version 4.1.0 ([STANDARD_CLASSES],
      [loadIntel], [processBackgroundQueue], [analyzeArticle],
      [mergeGraphData], [filteredNodes], [filteredLinks]) from the same
      file, lines 987 to 1664.

    Conventions of the embedding.
    - Node objects live in a JavaScript heap: a node is referred to by a
      location, and an in-place assignment ([n.x = ...]) updates the heap.
      Two occurrences of one location are one object (aliasing).  The heap
      is total: every location holds some object.
    - Link objects are never assigned to by the code embedded here, so a
      link is an immutable record.  An endpoint is [string | GraphNode]; a
      node endpoint is a location, and only its [id] is ever read.
    - [new Set(...)] is a [gset string]; [Array.prototype.filter] is the
      list filter; spreading two arrays is list append.
    - Values have the types the TypeScript declarations give them, except
      where the code itself tests the shape of a value ([Array.isArray],
      truthiness, [typeof]): there the argument ranges over the shapes the
      test distinguishes.  So the [type] of a node is the string it is at
      run time: the members of [NodeType] are strings, and the node of a
      parsed reply carries whatever string the reply gave, the empty one
      included, which [if (targetClassId)] tells from the others.  A reply
      node that lacks the property fails that test as the empty string
      does; what such a node reads as elsewhere ([undefined] in a prompt,
      in the export or as a link target) is not modelled.
    - A double is the rational it denotes.  The arithmetic of the code is
      double arithmetic: each operation gives the double its exact result
      is rounded to, and the rounding comes with the random source of the
      call (see [RandomSource]).
    - [setGraphData(updater)] only hands the updater to React.  React runs
      it on the current state later, usually during the next render and
      after [mergeGraphData] has returned to its caller; an exception of
      the updater is raised there, inside React, and not to the caller of
      [mergeGraphData] (see [mergeGraphData]). *)

From Stdlib Require Import QArith Lqa Ascii.
From stdpp Require Import base decidable option list strings pretty gmap.

Local Open Scope string_scope.
Local Open Scope list_scope.

(** ** types.ts *)

Inductive NodeType : Set :=
  | Person | Organization | Location | Event
  | Concept | Document | Artifact | Class.

#[global] Instance NodeType_eq_dec : EqDecision NodeType.
Proof. solve_decision. Defined.

(** The string value of each member of the string enum: what a member of
    [NodeType] is at run time. *)
Definition NodeType_value (t : NodeType) : string :=
  match t with
  | Person => "Person"
  | Organization => "Organization"
  | Location => "Location"
  | Event => "Event"
  | Concept => "Concept"
  | Document => "Document"
  | Artifact => "Artifact"
  | Class => "Class"
  end.

Coercion NodeType_value : NodeType >-> string.

Inductive PropertyValue : Type :=
  | PropString (s : string)
  | PropNumber (q : Q).

(** [interface GraphNode].  An optional field is an [option]; [fx] and [fy]
    are [number | null] and optional.  [type] is declared [NodeType]; the
    object of a parsed reply holds the string of the reply, which need not
    be a member of the enum and may be empty. *)
Record GraphNode : Type := mkGraphNode {
  node_id : string;
  node_label : string;
  node_type : string;
  node_properties : option (list (string * PropertyValue));
  node_x : option Q;
  node_y : option Q;
  node_vx : option Q;
  node_vy : option Q;
  node_fx : option (option Q);
  node_fy : option (option Q)
}.

(** Heap locations of node objects. *)
Definition loc : Set := nat.

(** [string | GraphNode]: an id, or the node object itself. *)
Inductive Endpoint : Set :=
  | EndId (s : string)
  | EndNode (r : loc).

#[global] Instance Endpoint_eq_dec : EqDecision Endpoint.
Proof. solve_decision. Defined.

(** [interface GraphLink]. *)
Record GraphLink : Set := mkGraphLink {
  link_source : Endpoint;
  link_target : Endpoint;
  link_predicate : string;
  link_label : string;
  link_isOntologyLink : option bool
}.

#[global] Instance GraphLink_eq_dec : EqDecision GraphLink.
Proof. solve_decision. Defined.

(** [interface KnowledgeGraphData]; the node array holds object references. *)
Record KnowledgeGraphData : Set := mkGraph {
  nodes : list loc;
  links : list GraphLink
}.

(** ** The heap of node objects *)

Definition Heap : Type := loc → GraphNode.

Definition heap_set (h : Heap) (r : loc) (n : GraphNode) : Heap :=
  λ r', if decide (r' = r) then n else h r'.

(** [n.x = vx; n.y = vy] on the object at [r]. *)
Definition assign_xy (h : Heap) (r : loc) (vx vy : Q) : Heap :=
  let n := h r in
  heap_set h r
    {| node_id := node_id n; node_label := node_label n;
       node_type := node_type n; node_properties := node_properties n;
       node_x := Some vx; node_y := Some vy;
       node_vx := node_vx n; node_vy := node_vy n;
       node_fx := node_fx n; node_fy := node_fy n |}.

(** ** Values a caller can pass where an array is expected *)

Inductive JsArg (A : Type) : Type :=
  | JsArray (xs : list A)
  | JsUndefined
  | JsNull
  | JsNonArray.   (* any other value: a plain object, a string, a number *)
Arguments JsArray {A} xs.
Arguments JsUndefined {A}.
Arguments JsNull {A}.
Arguments JsNonArray {A}.

Inductive JsError : Set :=
  | TypeError
  | Error (message : string).

(** Completion of a call: a normal return or a thrown exception. *)
Inductive Completion (A : Type) : Type :=
  | Returns (a : A)
  | Throws (e : JsError).
Arguments Returns {A} a.
Arguments Throws {A} e.

(** ** App.tsx: mergeGraphData *)

(** [typeof e === 'object' ? e.id : e] *)
Definition endpointId (h : Heap) (e : Endpoint) : string :=
  match e with
  | EndId s => s
  | EndNode r => node_id (h r)
  end.

(** The template literal [`${s}-${t}-${l.predicate}`]. *)
Definition linkSig (h : Heap) (l : GraphLink) : string :=
  endpointId h (link_source l) +:+ "-" +:+
  endpointId h (link_target l) +:+ "-" +:+ link_predicate l.

(** [new Set(prev.nodes.map(n => n.id))] *)
Definition existingIds (h : Heap) (prev : KnowledgeGraphData) : gset string :=
  list_to_set ((λ r, node_id (h r)) <$> nodes prev).

(** [newNodes.filter(n => !existingIds.has(n.id))] *)
Definition uniqueNewNodes (h : Heap) (prev : KnowledgeGraphData)
    (newNodes : list loc) : list loc :=
  filter (λ r, node_id (h r) ∉ existingIds h prev) newNodes.

(** The numbers of one call: [random k] is the value the [k]-th call of
    [Math.random()] returns, and [toDouble q] is the double that an
    arithmetic operation with exact result [q] yields (the rounding of the
    engine, round to nearest for IEEE doubles). *)
Record RandomSource : Type := mkRandom {
  random : nat → Q;
  toDouble : Q → Q
}.

(** [c + (Math.random() - 0.5) * 50] on doubles, [r] being the value drawn:
    a subtraction, a multiplication and an addition, each rounded. *)
Definition jitter (rnd : RandomSource) (c r : Q) : Q :=
  toDouble rnd (c + toDouble rnd (toDouble rnd (r - (1 # 2)) * 50))%Q.

(** The [forEach] that initialises positions: the [k]-th visited node draws
    the random values number [2k] and [2k+1]. *)
Fixpoint placeNodes (rnd : RandomSource) (k : nat) (h : Heap) (rs : list loc)
    : Heap :=
  match rs with
  | [] => h
  | r :: rs' =>
      let vx := jitter rnd 400 (random rnd (2 * k)%nat) in
      let vy := jitter rnd 300 (random rnd (2 * k + 1)%nat) in
      placeNodes rnd (S k) (assign_xy h r vx vy) rs'
  end.

(** [new Set(prev.links.map(l => ...signature...))] *)
Definition existingLinkSigs (h : Heap) (prev : KnowledgeGraphData)
    : gset string :=
  list_to_set (linkSig h <$> links prev).

(** [Array.isArray(newLinks) ? newLinks : []], after the default value
    [= []] of the parameter has replaced [undefined]. *)
Definition safeLinks (newLinks : JsArg GraphLink) : list GraphLink :=
  match newLinks with
  | JsArray ls => ls
  | JsUndefined => []
  | JsNull | JsNonArray => []
  end.

(** [safeLinks.filter(l => !existingLinkSigs.has(signature of l))] *)
Definition uniqueNewLinks (h : Heap) (prev : KnowledgeGraphData)
    (ls : list GraphLink) : list GraphLink :=
  filter (λ l, linkSig h l ∉ existingLinkSigs h prev) ls.

(** The state the updater works on: the heap and the React state
    [graphData] that React passes to it as [prev]. *)
Record AppState : Type := mkState {
  heap : Heap;
  graphData : KnowledgeGraphData
}.

(** The heap once the new nodes have been given their positions. *)
Definition placedHeap (rnd : RandomSource) (st : AppState)
    (newNodes : list loc) : Heap :=
  placeNodes rnd 0 (heap st)
    (uniqueNewNodes (heap st) (graphData st) newNodes).

(** The updater passed to [setGraphData], on an array of candidate nodes.
    It returns the heap after the position writes, the next [graphData] and
    the value left in [hasChanges]. *)
Definition mergeUpdater (rnd : RandomSource) (st : AppState)
    (newNodes : list loc) (newLinks : JsArg GraphLink)
    : AppState * bool :=
  let prev := graphData st in
  let uniqueNodes := uniqueNewNodes (heap st) prev newNodes in
  let h' := placedHeap rnd st newNodes in
  let uniqueLinks := uniqueNewLinks h' prev (safeLinks newLinks) in
  if decide (length uniqueNodes = 0%nat ∧ length uniqueLinks = 0%nat)
  then (mkState h' prev, false)
  else (mkState h' {| nodes := nodes prev ++ uniqueNodes;
                      links := links prev ++ uniqueLinks |}, true).

(** [mergeGraphData(newNodes, newLinks = [])] together with the run of the
    updater it hands to [setGraphData]: the completion is that of the
    updater when React runs it on the state [st].  [Returns (st', b)] gives
    the heap and the [graphData] the updater leaves and the value [b] it
    leaves in the variable [hasChanges].  [Throws] is an exception of the
    updater: [newNodes.filter] is a property access and a call on whatever
    was passed, and throws a [TypeError] unless the value is an array.  That
    exception is raised inside React, where the updater runs, and React
    keeps the state it had.

    The call of [mergeGraphData] itself only queues the updater and reads
    [hasChanges] ([mergeGraphData_call] below): it does not throw, and what
    it returns is [b] only if React has run the updater by then. *)
Definition mergeGraphData (rnd : RandomSource) (st : AppState)
    (newNodes : JsArg loc) (newLinks : JsArg GraphLink)
    : Completion (AppState * bool) :=
  match newNodes with
  | JsArray ns => Returns (mergeUpdater rnd st ns newLinks)
  | JsUndefined | JsNull | JsNonArray => Throws TypeError
  end.

(** When React runs a queued updater: after the call that queued it has
    returned (during the next render), or, when the component has no update
    pending, at once inside [setGraphData], which then swallows an exception
    of the updater and lets the render raise it again. *)
Inductive UpdaterRun : Set :=
  | AtRender
  | InsideCall.

(** What [mergeGraphData] gives its caller: [return hasChanges], the
    variable being [false] unless the updater has run inside the call and
    reached [hasChanges = true]. *)
Definition mergeGraphData_call (run : UpdaterRun) (rnd : RandomSource)
    (st : AppState) (newNodes : JsArg loc) (newLinks : JsArg GraphLink)
    : Completion bool :=
  match run with
  | AtRender => Returns false
  | InsideCall =>
      match mergeGraphData rnd st newNodes newLinks with
      | Returns (_, b) => Returns b
      | Throws _ => Returns false
      end
  end.

(** ** App.tsx: the filtered view *)

(** [NodeType | 'ALL'], the state of the type drop-down. *)
Inductive TypeFilter : Set :=
  | ALL
  | OnlyType (t : NodeType).

(** The three pieces of filter state of [App]. *)
Record ViewFilters : Set := mkFilters {
  nodeTypeFilter : TypeFilter;
  showOntology : bool;
  searchTerm : string
}.

(** The callback of [graphData.nodes.filter]. *)
Definition keepNode (f : ViewFilters) (node : GraphNode) : bool :=
  if negb (showOntology f) && bool_decide (node_type node = Class)
  then false
  else
    match nodeTypeFilter f with
    | OnlyType t => if bool_decide (node_type node ≠ t) then false else true
    | ALL => true
    end.

Definition filteredNodes (f : ViewFilters) (st : AppState) : list loc :=
  filter (λ r, keepNode f (heap st r) = true) (nodes (graphData st)).

(** [filteredNodes.find(n => n.id === i)]: the first such node, or
    [undefined]. *)
Definition findNodeById (h : Heap) (rs : list loc) (i : string) : option loc :=
  List.find (λ r, bool_decide (node_id (h r) = i)) rs.

(** The callback of [graphData.links.filter]; a node object is truthy and
    [undefined] is not. *)
Definition keepLink (f : ViewFilters) (st : AppState) (l : GraphLink) : Prop :=
  let sourceId := endpointId (heap st) (link_source l) in
  let targetId := endpointId (heap st) (link_target l) in
  let sourceExists := findNodeById (heap st) (filteredNodes f st) sourceId in
  let targetExists := findNodeById (heap st) (filteredNodes f st) targetId in
  is_Some sourceExists ∧ is_Some targetExists.

#[global] Instance keepLink_dec f st l : Decision (keepLink f st l).
Proof. unfold keepLink. apply _. Defined.

Definition filteredLinks (f : ViewFilters) (st : AppState) : list GraphLink :=
  filter (keepLink f st) (links (graphData st)).

(** ** App.tsx: the pre-seeded upper ontology *)

Definition standardClass (name : string) : GraphNode :=
  {| node_id := name; node_label := name; node_type := Class;
     node_properties := None;
     node_x := Some 0%Q; node_y := Some 0%Q;
     node_vx := None; node_vy := None; node_fx := None; node_fy := None |}.

Definition STANDARD_CLASSES : list GraphNode :=
  standardClass <$>
    ["Person"; "Organization"; "Location"; "Event"; "Concept"; "Document";
     "Artifact"].

(** A heap whose first objects are the given ones; every other location
    holds an object that no graph below refers to. *)
Definition unusedObject : GraphNode :=
  {| node_id := ""; node_label := ""; node_type := Concept;
     node_properties := None; node_x := None; node_y := None;
     node_vx := None; node_vy := None; node_fx := None; node_fy := None |}.

Definition heapOf (objs : list GraphNode) : Heap :=
  λ r, default unusedObject (objs !! r).

(** The state [loadIntel] installs with
    [setGraphData({ nodes: [...STANDARD_CLASSES], links: [] })], in a heap
    that holds the seven class objects followed by [objs]. *)
Definition seededState (objs : list GraphNode) : AppState :=
  {| heap := heapOf (STANDARD_CLASSES ++ objs);
     graphData := {| nodes := seq 0 (length STANDARD_CLASSES); links := [] |} |}.

(** ** geminiService.ts: heuristic linking of a fragment *)

(** [l.source === node.id]: an object is never [===] to a string. *)
Definition endpointIs (e : Endpoint) (s : string) : bool :=
  match e with
  | EndId s' => bool_decide (s' = s)
  | EndNode _ => false
  end.

(** [links.some(l => l.source === node.id && l.predicate === 'rdf:type')] *)
Definition hasTypeLink (ls : list GraphLink) (node : GraphNode) : bool :=
  existsb (λ l, endpointIs (link_source l) (node_id node)
                && bool_decide (link_predicate l = "rdf:type")) ls.

(** The object literal pushed by the heuristic. *)
Definition typeLinkOf (node : GraphNode) : GraphLink :=
  {| link_source := EndId (node_id node);
     link_target := EndId (node_type node);
     link_predicate := "rdf:type";
     link_label := "type";
     link_isOntologyLink := Some true |}.

(** Truthiness of a string: every string but the empty one. *)
Definition truthyString (s : string) : bool := negb (bool_decide (s = "")).

(** One iteration of the [forEach] of [extractKnowledgeGraph]; [ls] is the
    array [links] that [push] extends. *)
Definition extractLinkStep (h : Heap) (ls : list GraphLink) (r : loc)
    : list GraphLink :=
  let node := h r in
  if bool_decide (node_type node = Class) then ls
  else if hasTypeLink ls node then ls
  else
    let targetClassId := node_type node in
    if truthyString targetClassId then ls ++ [typeLinkOf node] else ls.

(** One iteration of the [forEach] of [performShaclScan]. *)
Definition shaclLinkStep (h : Heap) (ls : list GraphLink) (r : loc)
    : list GraphLink :=
  let node := h r in
  if bool_decide (node_type node = Class) then ls
  else if hasTypeLink ls node then ls
  else ls ++ [typeLinkOf node].

(** [existingClasses.includes(l.target)] *)
Definition includesEndpoint (existingClasses : list string) (e : Endpoint)
    : bool :=
  existsb (endpointIs e) existingClasses.

(** The [links.map] that recomputes [isOntologyLink]. *)
Definition markOntologyLink (existingClasses : list string) (l : GraphLink)
    : GraphLink :=
  {| link_source := link_source l; link_target := link_target l;
     link_predicate := link_predicate l; link_label := link_label l;
     link_isOntologyLink :=
       Some (bool_decide (link_predicate l = "rdf:type")
             || bool_decide (link_predicate l = "rdfs:subClassOf")
             || includesEndpoint existingClasses (link_target l)) |}.

(** [{ ...l, isOntologyLink: true }] *)
Definition forceOntologyLink (l : GraphLink) : GraphLink :=
  {| link_source := link_source l; link_target := link_target l;
     link_predicate := link_predicate l; link_label := link_label l;
     link_isOntologyLink := Some true |}.

(** [getApiKey] is [process.env.API_KEY]; [initAi] gives [null] for a
    missing or empty key and a client otherwise (the constructor of the
    client library is taken to return). *)
Definition initAi (apiKey : option string) : option string :=
  match apiKey with
  | Some key => if truthyString key then Some key else None
  | None => None
  end.

(** What the [try] block of a service function gets from the awaited model
    call and [JSON.parse]: an exception that reaches the [catch] block, or
    parsed [data] whose [nodes] and [links] are some values.  Parsed node
    objects are already in the heap. *)
Inductive ModelReply : Set :=
  | CallThrows
  | Parsed (dataNodes : JsArg loc) (dataLinks : JsArg GraphLink).

(** [Array.isArray(v) ? v : []] *)
Definition arrayOrEmpty {A : Type} (v : JsArg A) : list A :=
  match v with
  | JsArray xs => xs
  | JsUndefined | JsNull | JsNonArray => []
  end.

(** A fragment [{ nodes, links }]. *)
Record Fragment : Set := mkFragment {
  frag_nodes : list loc;
  frag_links : list GraphLink
}.

Definition emptyFragment : Fragment := {| frag_nodes := []; frag_links := [] |}.

Definition API_KEY_NOT_FOUND : JsError := Error "API Key not found".

Definition extractKnowledgeGraph (apiKey : option string) (h : Heap)
    (existingClasses : list string) (reply : ModelReply)
    : Completion Fragment :=
  match initAi apiKey with
  | None => Throws API_KEY_NOT_FOUND
  | Some _ =>
      match reply with
      | CallThrows => Returns emptyFragment
      | Parsed dataNodes dataLinks =>
          let ns := arrayOrEmpty dataNodes in
          let ls := arrayOrEmpty dataLinks in
          let ls := fold_left (extractLinkStep h) ns ls in
          let ls := markOntologyLink existingClasses <$> ls in
          Returns {| frag_nodes := ns; frag_links := ls |}
      end
  end.

Definition performShaclScan (apiKey : option string) (h : Heap)
    (reply : ModelReply) : Completion Fragment :=
  match initAi apiKey with
  | None => Throws API_KEY_NOT_FOUND
  | Some _ =>
      match reply with
      | CallThrows => Returns emptyFragment
      | Parsed dataNodes dataLinks =>
          let ns := arrayOrEmpty dataNodes in
          let ls := arrayOrEmpty dataLinks in
          let ls := fold_left (shaclLinkStep h) ns ls in
          Returns {| frag_nodes := ns; frag_links := ls |}
      end
  end.


(** The body of [analyzeArticle] between the two [setProcessingIds]: the
    fragment is merged when the call returned one ([kg.nodes] is an array,
    hence truthy; [kg.links || []] is [kg.links]); an exception is caught
    and the state is left as it was. *)
Definition analyzeArticle (rnd : RandomSource) (st : AppState)
    (apiKey : option string) (ontologyContext : list string)
    (reply : ModelReply) : AppState :=
  match extractKnowledgeGraph apiKey (heap st) ontologyContext reply with
  | Returns kg =>
      match mergeGraphData rnd st (JsArray (frag_nodes kg))
                           (JsArray (frag_links kg)) with
      | Returns (st', _) => st'
      | Throws _ => st
      end
  | Throws _ => st
  end.

(** ** Properties of a state, in the words of the specification *)

(** An endpoint resolves when some node of the graph carries its id. *)
Definition resolves (st : AppState) (e : Endpoint) : Prop :=
  ∃ r, r ∈ nodes (graphData st) ∧ node_id (heap st r) = endpointId (heap st) e.

Definition noDanglingLinks (st : AppState) : Prop :=
  ∀ l, l ∈ links (graphData st) →
    resolves st (link_source l) ∧ resolves st (link_target l).

Definition nodeIds (st : AppState) : list string :=
  (λ r, node_id (heap st r)) <$> nodes (graphData st).

(** The identity triple [(sourceId, targetId, predicate)] of a link. *)
Definition linkTriple (h : Heap) (l : GraphLink) : string * string * string :=
  (endpointId h (link_source l), endpointId h (link_target l), link_predicate l).

Definition uniqueNodeIds (st : AppState) : Prop := NoDup (nodeIds st).

Definition uniqueLinkTriples (st : AppState) : Prop :=
  NoDup (linkTriple (heap st) <$> links (graphData st)).




(** The state a completed call leaves, and the state as it was when the
    call threw. *)
Definition stateAfter (st : AppState) (c : Completion (AppState * bool))
    : AppState :=
  match c with
  | Returns (st', _) => st'
  | Throws _ => st
  end.

(** ** Concrete inputs *)

(** A node object as [JSON.parse] builds it: id, label and type only. *)
Definition parsedNode (i l t : string) : GraphNode :=
  {| node_id := i; node_label := l; node_type := t; node_properties := None;
     node_x := None; node_y := None; node_vx := None; node_vy := None;
     node_fx := None; node_fy := None |}.

Definition parsedLink (s t p lbl : string) : GraphLink :=
  {| link_source := EndId s; link_target := EndId t; link_predicate := p;
     link_label := lbl; link_isOntologyLink := None |}.

(** [Math.random()] returning one half every time; every operation of the
    position arithmetic is then exact ([0.5 - 0.5], [0 * 50], [400 + 0]). *)
Definition constantRandom : RandomSource :=
  {| random := λ _, (1 # 2)%Q; toDouble := λ q, q |}.

Definition nodeUN : GraphNode := parsedNode "UN" "United Nations" Organization.

Definition linkMemberOf : GraphLink :=
  parsedLink "UN" "SecurityCouncil" "org:memberOf" "member of".

(** The seeded store and one parsed object, [UN], at location 7. *)
Definition stateUN : AppState := seededState [nodeUN].

(** Two parsed objects with the same id at locations 7 and 8. *)
Definition stateTwoUN : AppState :=
  seededState [nodeUN; parsedNode "UN" "UN Headquarters" Location].

(** A Person and an Organization linked by [org:memberOf], as the store
    holds them once the article that mentions them has been analysed: the
    seven class nodes, the Person at location 7, the Organization at
    location 8, the link and the two synthesised [rdf:type] links. *)
Definition statePersonOrg : AppState :=
  analyzeArticle constantRandom
    (seededState [parsedNode "Guterres" "Antonio Guterres" Person; nodeUN])
    (Some "key") (node_id <$> STANDARD_CLASSES)
    (Parsed (JsArray [7%nat; 8%nat])
            (JsArray [parsedLink "Guterres" "UN" "org:memberOf" "member of"])).

Definition personFilter : ViewFilters :=
  {| nodeTypeFilter := OnlyType Person; showOntology := true; searchTerm := "" |}.

(** A non-Class node returned by the domain-ontology call (location 7) and
    the [UN] object of a later article (location 8). *)
Definition stateVessel : AppState :=
  seededState [parsedNode "Vessel" "Vessel" Concept; nodeUN].

(** The merge of the scenario of the specification: [UN] and its dangling
    [org:memberOf] link offered to the seeded store. *)
Definition mergeUN : Completion (AppState * bool) :=
  mergeGraphData constantRandom stateUN (JsArray [7%nat]) (JsArray [linkMemberOf]).

Definition stateUN_merged : AppState := stateAfter stateUN mergeUN.

(** A batch that holds the id [UN] twice and the same link twice. *)
Definition mergeTwoUN : Completion (AppState * bool) :=
  mergeGraphData constantRandom stateTwoUN (JsArray [7%nat; 8%nat])
                 (JsArray [linkMemberOf; linkMemberOf]).

Definition stateTwoUN_merged : AppState := stateAfter stateTwoUN mergeTwoUN.




(** The fragment [extractKnowledgeGraph] returns for the reply that holds
    [UN] and its [org:memberOf] link, with no class context. *)
Definition fragmentUN : Fragment :=
  {| frag_nodes := [7%nat];
     frag_links := [markOntologyLink [] linkMemberOf;
                    markOntologyLink [] (typeLinkOf nodeUN)] |}.





(** ** geminiService.ts: fetchGlobalIntel *)

(** A value as [JSON.parse] builds it, and [undefined] for a missing
    property.  The fields of an object are in property-enumeration order. *)
#[local] Set Warnings "-register-all".
Inductive JsValue : Type :=
  | VUndefined
  | VNull
  | VBool (b : bool)
  | VNumber (q : Q)
  | VString (s : string)
  | VArray (items : list JsValue)
  | VObject (fields : list (string * JsValue)).

(** Truthiness ([NaN] does not come out of [JSON.parse]). *)
Definition truthy (v : JsValue) : bool :=
  match v with
  | VUndefined | VNull => false
  | VBool b => b
  | VNumber q => negb (Qeq_bool q 0)
  | VString s => truthyString s
  | VArray _ | VObject _ => true
  end.

(** [v || d] *)
Definition orElse (v d : JsValue) : JsValue := if truthy v then v else d.

Definition isArray (v : JsValue) : bool :=
  match v with
  | VArray _ => true
  | _ => false
  end.

(** [v.name] for one of the names read below: reading a property of
    [undefined] or [null] throws; an object gives the field or [undefined];
    a primitive or an array has no property of these names. *)
Definition getProperty (v : JsValue) (name : string) : Completion JsValue :=
  match v with
  | VUndefined | VNull => Throws TypeError
  | VObject fields =>
      match List.find (λ kv, bool_decide (kv.1 = name)) fields with
      | Some kv => Returns kv.2
      | None => Returns VUndefined
      end
  | VBool _ | VNumber _ | VString _ | VArray _ => Returns VUndefined
  end.

(** Sequencing of calls that may throw. *)
#[global] Instance Completion_bind : MBind Completion :=
  λ A B k c,
    match c with
    | Returns a => k a
    | Throws e => Throws e
    end.

(** [interface NewsArticle].  The fields copied from a reply hold whatever
    truthy value the reply had. *)
Record NewsArticle : Type := mkArticle {
  article_id : string;
  article_title : JsValue;
  article_summary : JsValue;
  article_source : JsValue;
  article_timestamp : string;
  article_url : string;
  article_semanticTags : list JsValue;
  article_riskLevel : JsValue
}.

(** The response of [ai.models.generateContent]: its [text], and the value
    of [candidates?.[0]?.groundingMetadata?.groundingChunks?.[index]?.web?.uri]
    for each index ([None] when the chain ends in [undefined]). *)
Record GenerateContentResponse : Type := mkResponse {
  response_text : option string;
  response_groundingUri : nat → option string
}.

Inductive GenerateContentOutcome : Type :=
  | ContentThrows (e : JsError)
  | ContentReturns (response : GenerateContentResponse).

(** The places where the clock is read. *)
Inductive ClockRead : Set :=
  | AtItem (index : nat)
  | AtCatch.

Record Clock : Type := mkClock {
  dateNow : ClockRead → Z;           (* [Date.now()] *)
  toISOString : ClockRead → string   (* [new Date().toISOString()] *)
}.

Definition doubleQuote : string := String (Ascii.ascii_of_nat 34) EmptyString.

Definition intelContext (topic : option string) : string :=
  let general :=
    "Focus on: Geopolitics, Cyber Threats, Environmental Disasters, and Major Technological Shifts." in
  match topic with
  | Some t =>
      if truthyString t
      then "Focus strictly on the topic: " +:+ doubleQuote +:+ t +:+ doubleQuote
           +:+ ". Find connections to this topic globally."
      else general
  | None => general
  end.

Definition intelPrompt (topic : option string) : string :=
  "
    Generate a situational awareness briefing for a global command center. 
    " +:+ intelContext topic +:+ "
    
    Return 4 distinct, high-priority news items. 
    If possible, ground this in real recent events (using the tools), otherwise simulate realistic scenarios based on current world context.
    
    For each item, assess a 'riskLevel' (LOW, MEDIUM, HIGH, CRITICAL).
    Include 2-3 specific semantic tags using standard ontologies (e.g., 'dcat:Dataset', 'prov:Activity', 'odrl:Policy').
  ".

(** [response.text || "[]"] *)
Definition textOrEmptyArray (text : option string) : string :=
  match text with
  | Some s => if truthyString s then s else "[]"
  | None => "[]"
  end.

(** The normalisation after [JSON.parse]: an array is kept; of an object
    the first array among [Object.values] is taken, or [[]]; anything else
    becomes [[]]. *)
Definition ensureArray (data : JsValue) : list JsValue :=
  match data with
  | VArray items => items
  | VObject fields =>
      match List.find isArray (snd <$> fields) with
      | Some (VArray items) => items
      | _ => []
      end
  | VUndefined | VNull | VBool _ | VNumber _ | VString _ => []
  end.

(** The callback of [data.map]. *)
Definition buildArticle (clock : Clock) (response : GenerateContentResponse)
    (index : nat) (item : JsValue) : Completion NewsArticle :=
  let id := "news-" +:+ pretty (dateNow clock (AtItem index)) +:+ "-"
            +:+ pretty index in
  title ← getProperty item "title";
  summary ← getProperty item "summary";
  source ← getProperty item "source";
  riskLevel ← getProperty item "riskLevel";
  tags ← getProperty item "semanticTags";
  Returns
    {| article_id := id;
       article_title := orElse title (VString "Unknown Event");
       article_summary := orElse summary (VString "No details available.");
       article_source := orElse source (VString "Unknown Source");
       article_riskLevel := orElse riskLevel (VString "LOW");
       article_semanticTags :=
         match tags with
         | VArray items => items
         | _ => []
         end;
       article_timestamp := toISOString clock (AtItem index);
       article_url :=
         match response_groundingUri response index with
         | Some uri => if truthyString uri then uri else "#"
         | None => "#"
         end |}.

(** [data.map((item, index) => ...)] from position [index] on; the first
    callback that throws ends the call. *)
Fixpoint mapArticles (clock : Clock) (response : GenerateContentResponse)
    (index : nat) (data : list JsValue) : Completion (list NewsArticle) :=
  match data with
  | [] => Returns []
  | item :: rest =>
      article ← buildArticle clock response index item;
      others ← mapArticles clock response (S index) rest;
      Returns (article :: others)
  end.

(** The article returned from the [catch] block. *)
Definition fallbackArticle (clock : Clock) : NewsArticle :=
  {| article_id := "mock-1";
     article_title := VString "System Offline: Neural Net Breach";
     article_summary := VString
       "A localized failure in the semantic grid has caused data packet loss. Provenance chains broken.";
     article_source := VString "Internal Sensors";
     article_timestamp := toISOString clock AtCatch;
     article_riskLevel := VString "HIGH";
     article_semanticTags := [VString "prov:Invalidation"; VString "sec:Breach"];
     article_url := "#" |}.

Section FetchGlobalIntel.
(** [JSON.parse]: [None] when it throws. *)
Variable JSON_parse : string → option JsValue.
(** The model call, a function of the prompt. *)
Variable generateContent : string → GenerateContentOutcome.
Variable clock : Clock.

(** The body of the [try] block. *)
Definition fetchAttempt (topic : option string)
    : Completion (list NewsArticle) :=
  match generateContent (intelPrompt topic) with
  | ContentThrows e => Throws e
  | ContentReturns response =>
      let data :=
        match JSON_parse (textOrEmptyArray (response_text response)) with
        | Some v => v
        | None => VArray []
        end in
      mapArticles clock response 0 (ensureArray data)
  end.

(** The promise of the [async] function: [Returns] is a resolution,
    [Throws] a rejection. *)
Definition fetchGlobalIntel (apiKey : option string) (topic : option string)
    : Completion (list NewsArticle) :=
  match initAi apiKey with
  | None => Throws API_KEY_NOT_FOUND
  | Some _ =>
      match fetchAttempt topic with
      | Returns articles => Returns articles
      | Throws _ => Returns [fallbackArticle clock]
      end
  end.
End FetchGlobalIntel.

(** A reply that is an object holding one array whose only element is
    [null], and a [JSON.parse] that knows this text. *)
Definition nullItemText : string :=
  "{" +:+ doubleQuote +:+ "items" +:+ doubleQuote +:+ ": [null]}".

Definition replyWithNullItem : GenerateContentResponse :=
  {| response_text := Some nullItemText;
     response_groundingUri := λ _, None |}.

Definition parseNullItem (text : string) : option JsValue :=
  if bool_decide (text = nullItemText)
  then Some (VObject [("items", VArray [VNull])])
  else None.

Definition fixedClock : Clock :=
  {| dateNow := λ _, 1700000000000%Z;
     toISOString := λ _, "2023-11-14T22:13:20.000Z" |}.

(** What [fetchGlobalIntel] resolves with for that reply. *)
Definition nullItemResult : Completion (list NewsArticle) :=
  fetchGlobalIntel parseNullItem (λ _, ContentReturns replyWithNullItem)
                   fixedClock (Some "key") (Some "Ocean").

(** The values whose properties can be read. *)
Definition readable (v : JsValue) : bool :=
  match v with
  | VUndefined | VNull => false
  | _ => true
  end.


(** ** App.tsx: processBackgroundQueue on the event loop

    The function is [async]: it runs until an [await], and is resumed by
    the event loop when the awaited timer fires.  [analyzeArticle] is called
    without [await]: it runs until its own [await] of
    [extractKnowledgeGraph] and is resumed when that call settles.  The
    loop below is the event loop restricted to these two kinds of wake-up.
    Time is in milliseconds from the call of [processBackgroundQueue]; a
    task runs at the time it is due and takes no time; tasks due at the
    same time run in the order they were scheduled. *)

Inductive Task : Type :=
  | QueueTimer (i : nat)       (* the [setTimeout] of iteration [i] fires *)
  | ExtractSettles (i : nat) (article : NewsArticle).
      (* the enrichment call for [article = items[i]] settles and resumes
         the [analyzeArticle] that captured [article] *)

Inductive QueueEvent : Set :=
  | AnalysisStarted (i : nat)  (* [analyzeArticle(items[i])] is called *)
  | AnalysisSettled (i : nat). (* its call settled: the fragment is merged or
                                  the error swallowed, the mark cleared *)

#[global] Instance QueueEvent_eq_dec : EqDecision QueueEvent.
Proof. solve_decision. Defined.

Record LoopState : Type := mkLoop {
  agenda : list (nat * Task);          (* pending wake-ups, by due time *)
  processingIds : gset string;         (* the React state [processingIds] *)
  trace : list (nat * QueueEvent)      (* what happened, and when *)
}.

(** Registering a wake-up: after every pending one that is due no later. *)
Fixpoint schedule (due : nat) (task : Task) (pending : list (nat * Task))
    : list (nat * Task) :=
  match pending with
  | [] => [(due, task)]
  | (d, t) :: rest =>
      if decide (d ≤ due)%nat
      then (d, t) :: schedule due task rest
      else (due, task) :: pending
  end.

(** The pacing delay of iteration [i]: [i === 0 ? 0 : 2000]. *)
Definition pacingDelay (i : nat) : nat :=
  if decide (i = 0%nat) then 0%nat else 2000%nat.

Section Queue.
Variable items : list NewsArticle.
(** How long the enrichment call for [items[i]] takes to settle. *)
Variable latency : nat → nat.

(** One wake-up at time [now]. *)
Definition runTask (now : nat) (task : Task) (s : LoopState) : LoopState :=
  match task with
  | QueueTimer i =>
      match items !! i with
      | None => s
      | Some article =>
          (* [analyzeArticle(article, ...)] up to its [await] *)
          let pending :=
            schedule (now + latency i) (ExtractSettles i article) (agenda s) in
          let ids := {[article_id article]} ∪ processingIds s in
          let tr := trace s ++ [(now, AnalysisStarted i)] in
          (* [i++], the loop test, and the next [await] of a timer *)
          if decide (S i < length items)%nat
          then {| agenda := schedule (now + pacingDelay (S i)) (QueueTimer (S i)) pending;
                  processingIds := ids; trace := tr |}
          else {| agenda := pending; processingIds := ids; trace := tr |}
      end
  | ExtractSettles i article =>
      (* the rest of [analyzeArticle]: merge, then [finally] *)
      {| agenda := agenda s;
         processingIds := processingIds s ∖ {[article_id article]};
         trace := trace s ++ [(now, AnalysisSettled i)] |}
  end.

(** The event loop: the earliest wake-up is taken off the agenda and run. *)
Fixpoint runLoop (fuel : nat) (s : LoopState) : LoopState :=
  match fuel with
  | O => s
  | S fuel' =>
      match agenda s with
      | [] => s
      | (now, task) :: rest =>
          runLoop fuel'
            (runTask now task
               {| agenda := rest; processingIds := processingIds s;
                  trace := trace s |})
      end
  end.

(** The call itself: the loop test for [i = 0] and the first [await]. *)
Definition queueStart : LoopState :=
  {| agenda := if decide (0 < length items)%nat
               then [(pacingDelay 0, QueueTimer 0)] else [];
     processingIds := ∅;
     trace := [] |}.

(** Every item causes two wake-ups. *)
Definition processBackgroundQueue : LoopState :=
  runLoop (2 * length items) queueStart.

(** The events of the items from [i] on when the timer of [i] is due at
    [due]: each starts 2000 ms after the one before and settles when its
    own call does. *)
Fixpoint eventsFrom (due i count : nat) : list (nat * QueueEvent) :=
  match count with
  | O => []
  | S count' =>
      (due, AnalysisStarted i) :: (due + latency i, AnalysisSettled i)
      :: eventsFrom (due + 2000) (S i) count'
  end.
End Queue.

(** The [AnalysisStarted] entries of a trace, in order. *)
Definition startsOf (tr : list (nat * QueueEvent)) : list (nat * nat) :=
  omap (λ e, match e.2 with
             | AnalysisStarted i => Some (e.1, i)
             | AnalysisSettled _ => None
             end) tr.

(** The [AnalysisSettled] entries of a trace, in order. *)
Definition settlesOf (tr : list (nat * QueueEvent)) : list (nat * nat) :=
  omap (λ e, match e.2 with
             | AnalysisSettled i => Some (e.1, i)
             | AnalysisStarted _ => None
             end) tr.

(** Two articles; the call for the first takes 5 s, for the second 0.1 s. *)
Definition twoArticles : list NewsArticle :=
  [ {| article_id := "news-1700000000000-0"; article_title := VString "A";
       article_summary := VString "a"; article_source := VString "s";
       article_timestamp := "t"; article_url := "#";
       article_semanticTags := []; article_riskLevel := VString "LOW" |};
    {| article_id := "news-1700000000000-1"; article_title := VString "B";
       article_summary := VString "b"; article_source := VString "s";
       article_timestamp := "t"; article_url := "#";
       article_semanticTags := []; article_riskLevel := VString "LOW" |} ].

Definition slowThenFast (i : nat) : nat :=
  match i with
  | O => 5000%nat
  | _ => 100%nat
  end.

Definition quickCalls (i : nat) : nat := 300%nat.

(** The settlements still pending on an agenda, in agenda order. *)
Definition pendingSettles (pending : list (nat * Task))
    : list (nat * QueueEvent) :=
  omap (λ e, match e.2 with
             | ExtractSettles i _ => Some (e.1, AnalysisSettled i)
             | QueueTimer _ => None
             end) pending.

Definition isSettlement (e : nat * Task) : Prop :=
  match e.2 with
  | ExtractSettles _ _ => True
  | QueueTimer _ => False
  end.

(** An agenda on which no queue timer is pending. *)
Definition noTimer (pending : list (nat * Task)) : Prop :=
  Forall isSettlement pending.

(** ** Further inputs and notions used by the properties beyond the claims *)

(** Several merges in a row, each with its own random source. *)
Definition Batch : Type := RandomSource * list loc * list GraphLink.

Definition mergeBatch (st : AppState) (batch : Batch) : AppState :=
  stateAfter st (mergeGraphData batch.1.1 st (JsArray batch.1.2) (JsArray batch.2)).

Definition mergeAll (st : AppState) (batches : list Batch) : AppState :=
  fold_left mergeBatch batches st.

(** What [Math.random()] promises: a value in [[0, 1)]. *)
Definition unitRandom (rnd : RandomSource) : Prop :=
  ∀ k, (0 <= random rnd k)%Q ∧ (random rnd k < 1)%Q.

(** What rounding to a double promises, as far as the position arithmetic
    needs it: rounding is monotone, and a number that is a double is left
    as it is; the numbers listed are doubles. *)
Definition roundsToDouble (rnd : RandomSource) : Prop :=
  (∀ p q, (p <= q)%Q → (toDouble rnd p <= toDouble rnd q)%Q)
  ∧ Forall (λ c, (toDouble rnd c == c)%Q)
      [(-1 # 2)%Q; (1 # 2)%Q; (-25)%Q; 25%Q; 375%Q; 425%Q; 275%Q; 325%Q].

(** A position within 25 units of the centre [(400, 300)], the bounds
    included: rounding can reach them. *)
Definition nearCentre (node : GraphNode) : Prop :=
  ∃ vx vy, node_x node = Some vx ∧ node_y node = Some vy
           ∧ (375 <= vx)%Q ∧ (vx <= 425)%Q ∧ (275 <= vy)%Q ∧ (vy <= 325)%Q.

(** ** geminiService.ts: generateOntologyLayer and generateSituationReport *)

(** [Array.prototype.join]. *)
Fixpoint joinStrings (sep : string) (parts : list string) : string :=
  match parts with
  | [] => ""
  | [p] => p
  | p :: rest => p +:+ sep +:+ joinStrings sep rest
  end.

(** [sampleNodes.map(n => `${n.id} (${n.type})`).join(", ")] *)
Definition nodeSummary (h : Heap) (sampleNodes : list loc) : string :=
  joinStrings ", "
    ((λ r, node_id (h r) +:+ " (" +:+ node_type (h r) +:+ ")")
       <$> sampleNodes).

Definition ontologyLayerPrompt (summary : string) : string :=
  "
    Given these Knowledge Graph instances (A-Box):
    [" +:+ summary +:+ "]

    Generate the Ontology Layer (T-Box):
    1. Identify the high-level OWL Classes for these instances (e.g. 'GeopoliticalEntity', 'NonStateActor', 'CyberIncident').
    2. Create relationships for 'rdf:type' linking the instance ID to the Class ID.
    3. Create relationships between Classes if obvious (e.g. 'CyberIncident' rdfs:subClassOf 'SecurityEvent').

    Return as JSON nodes/links.
  ".

(** [generateOntologyLayer]; the model call is a function of the prompt. *)
Definition generateOntologyLayer (apiKey : option string) (h : Heap)
    (generateContent : string → ModelReply) (currentNodes : list loc)
    : Completion Fragment :=
  match initAi apiKey with
  | None => Throws API_KEY_NOT_FOUND
  | Some _ =>
      if decide (length currentNodes = 0%nat) then Returns emptyFragment
      else
        let sampleNodes := take 30 currentNodes in
        match generateContent (ontologyLayerPrompt (nodeSummary h sampleNodes)) with
        | CallThrows => Returns emptyFragment
        | Parsed dataNodes dataLinks =>
            Returns {| frag_nodes := arrayOrEmpty dataNodes;
                       frag_links := forceOntologyLink <$> arrayOrEmpty dataLinks |}
        end
  end.



(** ** App.tsx: the class ids [loadIntel] hands to the analysis

    [[...STANDARD_CLASSES, ...tBox.nodes].filter(n => n.type === NodeType.Class)
       .map(n => n.id)] *)
Definition ontologyClassIds (h : Heap) (tBoxNodes : list loc) : list string :=
  node_id <$>
    filter (λ n, node_type n = Class) (STANDARD_CLASSES ++ (h <$> tBoxNodes)).

(** ** Notions used for the ids of the articles *)

(** A string without the character [-]. *)
Fixpoint dashFree (s : string) : Prop :=
  match s with
  | EmptyString => True
  | String c rest => c ≠ "-"%char ∧ dashFree rest
  end.

(** The id [buildArticle] gives the article at position [index]. *)
Definition newsId (clock : Clock) (index : nat) : string :=
  "news-" +:+ pretty (dateNow clock (AtItem index)) +:+ "-" +:+ pretty index.

(** A [JSON.parse] that yields an array of two elements, one an object with
    a title and one a number, and the articles built from it. *)
Definition parseTwoItems (text : string) : option JsValue :=
  Some (VArray [VObject [("title", VString "Port closed")]; VNumber 3]).

Definition twoItemArticles : list NewsArticle :=
  match fetchGlobalIntel parseTwoItems (λ _, ContentReturns replyWithNullItem)
          fixedClock (Some "key") None with
  | Returns articles => articles
  | Throws _ => []
  end.

(** ** App.tsx: handleExportJSONLD

    An exported object is a finite map from property names to values; the
    order in which [JSON.stringify] prints the properties is not modelled,
    nor is the download of the file. *)





(** ** KnowledgeGraph.tsx: carrying positions over a data update *)

(** [new Map(simulation.nodes().map(n => [n.id, n]))]: a later entry
    replaces an earlier one with the same id. *)
Definition oldNodesMap (simulationNodes : list GraphNode)
    : gmap string GraphNode :=
  fold_left (λ m n, <[node_id n := n]> m) simulationNodes ∅.

(** The callback of [nodes.map]: a copy of the node, with the position and
    velocity of the simulated node of the same id when there is one. *)
Definition carryOver (m : gmap string GraphNode) (n : GraphNode) : GraphNode :=
  match m !! node_id n with
  | Some old =>
      {| node_id := node_id n; node_label := node_label n;
         node_type := node_type n; node_properties := node_properties n;
         node_x := node_x old; node_y := node_y old;
         node_vx := node_vx old; node_vy := node_vy old;
         node_fx := node_fx n; node_fy := node_fy n |}
  | None => n
  end.

(** The array handed to [simulation.nodes(...)]. *)
Definition simulationInput (simulationNodes nodes : list GraphNode)
    : list GraphNode :=
  carryOver (oldNodesMap simulationNodes) <$> nodes.

(** ** SituationPanel.tsx: handleSend

    The text of the input is a sequence of UTF-16 code units. *)
Definition CodeUnits : Set := list N.

(** The code units [String.prototype.trim] removes: white space and line
    terminators. *)
Definition isTrimmed (c : N) : bool :=
  existsb (N.eqb c)
    [9; 10; 11; 12; 13; 32; 160; 5760; 8192; 8193; 8194; 8195; 8196; 8197;
     8198; 8199; 8200; 8201; 8202; 8232; 8233; 8239; 8287; 12288; 65279]%N.

Fixpoint trimStart (s : CodeUnits) : CodeUnits :=
  match s with
  | [] => []
  | c :: rest => if isTrimmed c then trimStart rest else s
  end.

Definition trim (s : CodeUnits) : CodeUnits :=
  rev (trimStart (rev (trimStart s))).

(** What a submission does: the message passed to [onSendAlert], if any,
    and the text left in the input. *)
Record Submission : Set := mkSubmission {
  sent : option CodeUnits;
  inputAfter : CodeUnits
}.

Definition handleSend (input : CodeUnits) : Submission :=
  if decide (trim input = [])
  then {| sent := None; inputAfter := input |}
  else {| sent := Some input; inputAfter := [] |}.

(** ** A notion used for the in-flight marks of the queue *)

(** Every id marked in flight belongs to an analysis whose settlement is
    pending. *)
Definition marksPending (s : LoopState) : Prop :=
  ∀ i, i ∈ processingIds s →
    ∃ due k article, (due, ExtractSettles k article) ∈ agenda s
                     ∧ article_id article = i.

(** ** Notions used for the invariants of the analysis flow *)

(** The signature of an [rdf:type] link that leaves the node with id [i]
    toward [target]. *)
Definition typeSig (i target : string) : string :=
  i +:+ "-" +:+ target +:+ "-" +:+ "rdf:type".

(** Every node of the graph whose type is neither [Class] nor the empty
    string has, among the stored links, one with the signature of an
    [rdf:type] link that leaves the node. *)
Definition typedBySignature (st : AppState) : Prop :=
  ∀ r, r ∈ nodes (graphData st) → node_type (heap st r) ≠ Class →
    node_type (heap st r) ≠ "" →
    ∃ l target, l ∈ links (graphData st)
                ∧ linkSig (heap st) l = typeSig (node_id (heap st r)) target.

(** The endpoints of a candidate link are ids of stored or offered nodes. *)
Definition endpointsOffered (st : AppState) (ns : list loc) (l : GraphLink)
    : Prop :=
  ∀ e, e = link_source l ∨ e = link_target l →
    ∃ r, (r ∈ nodes (graphData st) ∨ r ∈ ns)
         ∧ node_id (heap st r) = endpointId (heap st) e.

(** * Properties *)

(** ** Position writes leave everything but [x] and [y] alone *)

Lemma assign_xy_other h r vx vy r' :
  r' ≠ r → assign_xy h r vx vy r' = h r'.
Proof.
  intros Hne. unfold assign_xy, heap_set. by rewrite decide_False.
Qed.

Lemma assign_xy_id h r vx vy r' :
  node_id (assign_xy h r vx vy r') = node_id (h r').
Proof.
  unfold assign_xy, heap_set. destruct (decide (r' = r)) as [->|]; done.
Qed.

Lemma assign_xy_label h r vx vy r' :
  node_label (assign_xy h r vx vy r') = node_label (h r').
Proof.
  unfold assign_xy, heap_set. destruct (decide (r' = r)) as [->|]; done.
Qed.

Lemma assign_xy_type h r vx vy r' :
  node_type (assign_xy h r vx vy r') = node_type (h r').
Proof.
  unfold assign_xy, heap_set. destruct (decide (r' = r)) as [->|]; done.
Qed.

Lemma placeNodes_other rnd rs : ∀ k h r,
  r ∉ rs → placeNodes rnd k h rs r = h r.
Proof.
  induction rs as [|r0 rs IH]; intros k h r Hnot; simpl; [done|].
  apply not_elem_of_cons in Hnot as [Hne Hnot].
  rewrite IH by done. by apply assign_xy_other.
Qed.

Lemma placeNodes_id rnd rs : ∀ k h r,
  node_id (placeNodes rnd k h rs r) = node_id (h r).
Proof.
  induction rs as [|r0 rs IH]; intros k h r; simpl; [done|].
  by rewrite IH, assign_xy_id.
Qed.

Lemma placeNodes_label rnd rs : ∀ k h r,
  node_label (placeNodes rnd k h rs r) = node_label (h r).
Proof.
  induction rs as [|r0 rs IH]; intros k h r; simpl; [done|].
  by rewrite IH, assign_xy_label.
Qed.

Lemma placeNodes_type rnd rs : ∀ k h r,
  node_type (placeNodes rnd k h rs r) = node_type (h r).
Proof.
  induction rs as [|r0 rs IH]; intros k h r; simpl; [done|].
  by rewrite IH, assign_xy_type.
Qed.

(** Two heaps that agree on every [id] give the same signatures and the
    same sets. *)
Section SameIds.
Variables h h' : Heap.
Hypothesis same_ids : ∀ r, node_id (h' r) = node_id (h r).

Lemma endpointId_same_ids e : endpointId h' e = endpointId h e.
Proof using same_ids. destruct e; simpl; auto. Qed.

Lemma linkSig_same_ids l : linkSig h' l = linkSig h l.
Proof using same_ids. unfold linkSig. by rewrite !endpointId_same_ids. Qed.

Lemma existingIds_same_ids g : existingIds h' g = existingIds h g.
Proof using same_ids.
  unfold existingIds. f_equal. apply list_fmap_ext. intros ? r _. apply same_ids.
Qed.

Lemma existingLinkSigs_same_ids g : existingLinkSigs h' g = existingLinkSigs h g.
Proof using same_ids.
  unfold existingLinkSigs. f_equal. apply list_fmap_ext.
  intros ? l _. apply linkSig_same_ids.
Qed.
End SameIds.

(** ** What one merge does *)

Section Merge.
Variable rnd : RandomSource.
Variable st : AppState.
Variable ns : list loc.
Variable newLinks : JsArg GraphLink.

Lemma mergeUpdater_heap :
  heap (mergeUpdater rnd st ns newLinks).1 = placedHeap rnd st ns.
Proof. unfold mergeUpdater. case_decide; done. Qed.

(** Either nothing is new and the graph object is returned as it is, or
    the new nodes and links are appended. *)
Lemma mergeUpdater_cases :
  (uniqueNewNodes (heap st) (graphData st) ns = []
   ∧ uniqueNewLinks (placedHeap rnd st ns) (graphData st) (safeLinks newLinks) = []
   ∧ mergeUpdater rnd st ns newLinks
     = (mkState (placedHeap rnd st ns) (graphData st), false))
  ∨ mergeUpdater rnd st ns newLinks
    = (mkState (placedHeap rnd st ns)
         {| nodes := nodes (graphData st)
                     ++ uniqueNewNodes (heap st) (graphData st) ns;
            links := links (graphData st)
                     ++ uniqueNewLinks (placedHeap rnd st ns) (graphData st)
                          (safeLinks newLinks) |}, true).
Proof.
  unfold mergeUpdater.
  case_decide as Hd; [left|right; done].
  destruct Hd as [Hn Hl].
  apply length_zero_iff_nil in Hn. apply length_zero_iff_nil in Hl. done.
Qed.

(** In both cases the lists of the result are the old ones followed by
    the new elements. *)
Lemma mergeUpdater_nodes :
  nodes (graphData (mergeUpdater rnd st ns newLinks).1)
  = nodes (graphData st) ++ uniqueNewNodes (heap st) (graphData st) ns.
Proof.
  destruct mergeUpdater_cases as [(Hn & _ & ->)| ->]; simpl; [|done].
  by rewrite Hn, app_nil_r.
Qed.

Lemma mergeUpdater_links :
  links (graphData (mergeUpdater rnd st ns newLinks).1)
  = links (graphData st)
    ++ uniqueNewLinks (placedHeap rnd st ns) (graphData st) (safeLinks newLinks).
Proof.
  destruct mergeUpdater_cases as [(_ & Hl & ->)| ->]; simpl; [|done].
  by rewrite Hl, app_nil_r.
Qed.

Lemma mergeUpdater_same_ids r :
  node_id (heap (mergeUpdater rnd st ns newLinks).1 r) = node_id (heap st r).
Proof. rewrite mergeUpdater_heap. unfold placedHeap. apply placeNodes_id. Qed.

(** Every candidate id is an id of the merged graph. *)
Lemma mergeUpdater_covers_ids r :
  r ∈ ns →
  let st' := (mergeUpdater rnd st ns newLinks).1 in
  node_id (heap st' r) ∈ existingIds (heap st') (graphData st').
Proof.
  intros Hr st'.
  unfold existingIds. rewrite elem_of_list_to_set, list_elem_of_fmap.
  subst st'. rewrite mergeUpdater_nodes.
  destruct (decide (node_id (heap st r) ∈ existingIds (heap st) (graphData st)))
    as [Hin|Hnot].
  - unfold existingIds in Hin.
    rewrite elem_of_list_to_set, list_elem_of_fmap in Hin.
    destruct Hin as (r0 & Heq & Hr0). exists r0. split.
    + rewrite !mergeUpdater_same_ids. done.
    + apply elem_of_app. by left.
  - exists r. split; [done|]. apply elem_of_app. right.
    unfold uniqueNewNodes. by apply list_elem_of_filter.
Qed.

(** Every candidate signature is a signature of the merged graph. *)
Lemma mergeUpdater_covers_sigs l :
  l ∈ safeLinks newLinks →
  let st' := (mergeUpdater rnd st ns newLinks).1 in
  linkSig (heap st') l ∈ existingLinkSigs (heap st') (graphData st').
Proof.
  intros Hl st'. subst st'. rewrite mergeUpdater_heap.
  unfold existingLinkSigs at 1. rewrite elem_of_list_to_set, list_elem_of_fmap.
  rewrite mergeUpdater_links.
  destruct (decide (linkSig (placedHeap rnd st ns) l
                    ∈ existingLinkSigs (placedHeap rnd st ns) (graphData st)))
    as [Hin|Hnot].
  - unfold existingLinkSigs in Hin.
    rewrite elem_of_list_to_set, list_elem_of_fmap in Hin.
    destruct Hin as (l0 & Heq & Hl0). exists l0. split; [done|].
    apply elem_of_app. by left.
  - exists l. split; [done|]. apply elem_of_app. right.
    unfold uniqueNewLinks. by apply list_elem_of_filter.
Qed.
End Merge.

(** ** Idempotence *)

Lemma filter_none {A} (P : A → Prop) `{∀ x, Decision (P x)} (l : list A) :
  (∀ x, x ∈ l → ¬ P x) → filter P l = [].
Proof.
  intros Hnone. destruct (filter P l) as [|x xs] eqn:Hf; [done|].
  assert (Hx : x ∈ filter P l) by (rewrite Hf; left).
  apply list_elem_of_filter in Hx as [HP Hin]. by destruct (Hnone x Hin).
Qed.

(** C3.  Merging a batch of candidate nodes and links a second time finds
    no new node and no new link, reports no change ([hasChanges] is false),
    and leaves the heap and the graph exactly as the first merge left them,
    whatever the random source of either call. *)
Theorem mergeGraphData_idempotent (rnd1 rnd2 : RandomSource) (st : AppState)
    (ns : list loc) (ls : list GraphLink) :
  ∃ st1 b1,
    mergeGraphData rnd1 st (JsArray ns) (JsArray ls) = Returns (st1, b1)
    ∧ uniqueNewNodes (heap st1) (graphData st1) ns = []
    ∧ uniqueNewLinks (heap st1) (graphData st1) ls = []
    ∧ mergeGraphData rnd2 st1 (JsArray ns) (JsArray ls) = Returns (st1, false).
Proof.
  destruct (mergeUpdater rnd1 st ns (JsArray ls)) as [st1 b1] eqn:Hm.
  exists st1, b1. split; [simpl; by rewrite Hm|].
  assert (Hn : uniqueNewNodes (heap st1) (graphData st1) ns = []).
  { apply filter_none. intros r Hr Hnot. apply Hnot.
    pose proof (mergeUpdater_covers_ids rnd1 st ns (JsArray ls) r Hr) as Hc.
    simpl in Hc. by rewrite Hm in Hc. }
  assert (Hl : uniqueNewLinks (heap st1) (graphData st1) ls = []).
  { apply filter_none. intros l Hin Hnot. apply Hnot.
    pose proof (mergeUpdater_covers_sigs rnd1 st ns (JsArray ls) l Hin) as Hc.
    simpl in Hc. by rewrite Hm in Hc. }
  repeat split; [done..|].
  simpl. unfold mergeUpdater, placedHeap. rewrite Hn. simpl. rewrite Hl. simpl.
  by destruct st1.
Qed.

(** ** Frame *)

(** C7.  A merge that returns keeps every node and every link of the
    previous graph, in place at the front of the new arrays; the object of
    every previous node is untouched (label, kind, position and all other
    fields), and so is every object that carries an id of the store, such as
    a candidate that re-offers an existing id; no object anywhere changes
    its id, label or kind; and an object that changed at all is one of the
    new nodes of this merge, which is not a node of the previous graph. *)
Theorem mergeGraphData_frame (rnd : RandomSource) (st st' : AppState)
    (newNodes : JsArg loc) (newLinks : JsArg GraphLink) (b : bool) :
  mergeGraphData rnd st newNodes newLinks = Returns (st', b) →
  (∃ addedNodes addedLinks,
      nodes (graphData st') = nodes (graphData st) ++ addedNodes
      ∧ links (graphData st') = links (graphData st) ++ addedLinks)
  ∧ (∀ r, r ∈ nodes (graphData st) → heap st' r = heap st r)
  ∧ (∀ r, node_id (heap st r) ∈ existingIds (heap st) (graphData st) →
          heap st' r = heap st r)
  ∧ (∀ r, node_id (heap st' r) = node_id (heap st r)
          ∧ node_label (heap st' r) = node_label (heap st r)
          ∧ node_type (heap st' r) = node_type (heap st r))
  ∧ (∀ r, heap st' r ≠ heap st r →
          r ∈ uniqueNewNodes (heap st) (graphData st) (arrayOrEmpty newNodes)
          ∧ r ∉ nodes (graphData st)).
Proof.
  intros Hm. destruct newNodes as [ns| | |]; simpl in Hm; try discriminate.
  injection Hm as Hm.
  assert (Hst : st' = (mergeUpdater rnd st ns newLinks).1) by (by rewrite Hm).
  assert (Hframe : ∀ r, node_id (heap st r) ∈ existingIds (heap st) (graphData st) →
                        heap st' r = heap st r).
  { intros r Hr. rewrite Hst, mergeUpdater_heap. unfold placedHeap.
    apply placeNodes_other.
    unfold uniqueNewNodes. rewrite list_elem_of_filter. tauto. }
  assert (Hold : ∀ r, r ∈ nodes (graphData st) →
                      node_id (heap st r) ∈ existingIds (heap st) (graphData st)).
  { intros r Hr. unfold existingIds.
    rewrite elem_of_list_to_set, list_elem_of_fmap. eauto. }
  split; [|split; [|split; [|split]]].
  - eexists _, _. rewrite Hst. split.
    + apply mergeUpdater_nodes.
    + apply mergeUpdater_links.
  - intros r Hr. auto.
  - done.
  - intros r. rewrite Hst, mergeUpdater_heap. unfold placedHeap.
    by rewrite placeNodes_id, placeNodes_label, placeNodes_type.
  - intros r Hchg. simpl.
    destruct (decide (r ∈ uniqueNewNodes (heap st) (graphData st) ns)) as [Hin|Hnot].
    + split; [done|]. intros Hr. apply Hchg. auto.
    + exfalso. apply Hchg. rewrite Hst, mergeUpdater_heap. unfold placedHeap.
      by apply placeNodes_other.
Qed.

Lemma mergeGraphData_frame_witness :
  mergeGraphData constantRandom stateUN (JsArray [7%nat]) (JsArray [linkMemberOf])
    = Returns (stateUN_merged, true)
  ∧ (∃ addedNodes addedLinks,
      nodes (graphData stateUN_merged) = nodes (graphData stateUN) ++ addedNodes
      ∧ links (graphData stateUN_merged) = links (graphData stateUN) ++ addedLinks)
  ∧ (∀ r, r ∈ nodes (graphData stateUN) → heap stateUN_merged r = heap stateUN r)
  ∧ (∀ r, node_id (heap stateUN r) ∈ existingIds (heap stateUN) (graphData stateUN) →
          heap stateUN_merged r = heap stateUN r)
  ∧ (∀ r, node_id (heap stateUN_merged r) = node_id (heap stateUN r)
          ∧ node_label (heap stateUN_merged r) = node_label (heap stateUN r)
          ∧ node_type (heap stateUN_merged r) = node_type (heap stateUN r))
  ∧ (∀ r, heap stateUN_merged r ≠ heap stateUN r →
          r ∈ uniqueNewNodes (heap stateUN) (graphData stateUN)
                (arrayOrEmpty (JsArray [7%nat]))
          ∧ r ∉ nodes (graphData stateUN)).
Proof.
  split; [reflexivity|].
  apply (mergeGraphData_frame constantRandom stateUN stateUN_merged
           (JsArray [7%nat]) (JsArray [linkMemberOf]) true).
  reflexivity.
Defined.

(** ** Referential integrity is not checked at merge time *)

(** C1 (as amended).  The only candidate links a merge leaves out are those
    whose signature is already in the store: a candidate link is in the
    merged graph exactly when it was already there or its signature was
    not, whether or not its source and target resolve to a node. *)
Theorem mergeGraphData_link_admission (rnd : RandomSource) (st st' : AppState)
    (ns : list loc) (newLinks : JsArg GraphLink) (b : bool) (l : GraphLink) :
  mergeGraphData rnd st (JsArray ns) newLinks = Returns (st', b) →
  l ∈ safeLinks newLinks →
  (l ∈ links (graphData st') ↔
     l ∈ links (graphData st)
     ∨ linkSig (heap st') l ∉ existingLinkSigs (heap st') (graphData st)).
Proof.
  intros Hm Hl. simpl in Hm. injection Hm as Hm.
  assert (Hst : st' = (mergeUpdater rnd st ns newLinks).1) by (by rewrite Hm).
  rewrite Hst, mergeUpdater_links, mergeUpdater_heap, elem_of_app.
  unfold uniqueNewLinks. rewrite list_elem_of_filter. tauto.
Qed.

Lemma mergeGraphData_link_admission_witness :
  mergeGraphData constantRandom stateUN (JsArray [7%nat]) (JsArray [linkMemberOf])
    = Returns (stateUN_merged, true)
  ∧ linkMemberOf ∈ safeLinks (JsArray [linkMemberOf])
  ∧ (linkMemberOf ∈ links (graphData stateUN_merged) ↔
       linkMemberOf ∈ links (graphData stateUN)
       ∨ linkSig (heap stateUN_merged) linkMemberOf
           ∉ existingLinkSigs (heap stateUN_merged) (graphData stateUN)).
Proof.
  split; [reflexivity|]. split; [left|].
  apply (mergeGraphData_link_admission constantRandom stateUN stateUN_merged
           [7%nat] (JsArray [linkMemberOf]) true linkMemberOf).
  - reflexivity.
  - left.
Defined.

(** C1, the claim as stated, fails: the seeded store has no dangling link;
    after [UN] is merged with its [org:memberOf] link, that link is in the
    graph and its target [SecurityCouncil] is the id of no node. *)
Lemma mergeGraphData_admits_dangling_link :
  noDanglingLinks stateUN
  ∧ mergeUN = Returns (stateUN_merged, true)
  ∧ linkMemberOf ∈ links (graphData stateUN_merged)
  ∧ ¬ resolves stateUN_merged (link_target linkMemberOf)
  ∧ ¬ noDanglingLinks stateUN_merged.
Proof.
  assert (Hin : linkMemberOf ∈ links (graphData stateUN_merged)) by left.
  assert (Hres : ¬ resolves stateUN_merged (link_target linkMemberOf)).
  { intros (r & Hr & Hid).
    change (nodes (graphData stateUN_merged)) with (seq 0 8) in Hr.
    apply elem_of_seq in Hr as [_ Hr].
    do 8 (destruct r as [|r]; [vm_compute in Hid; discriminate|]). lia. }
  split; [|split; [|split; [|split]]]; try done.
  - intros l Hl. by apply elem_of_nil in Hl.
  - intros Hnd. apply Hres. by apply (Hnd linkMemberOf Hin).
Qed.

(** ** Uniqueness of ids and of identity triples *)

Lemma linkSig_of_triple h l1 l2 :
  linkTriple h l1 = linkTriple h l2 → linkSig h l1 = linkSig h l2.
Proof. unfold linkTriple, linkSig. intros [= -> -> ->]. done. Qed.

(** A batch without internal duplicates keeps the store free of duplicates:
    the filters compare a candidate with the store only. *)
Lemma mergeUpdater_unique_ids rnd st ns newLinks :
  uniqueNodeIds st →
  NoDup ((λ r, node_id (heap st r)) <$> ns) →
  uniqueNodeIds (mergeUpdater rnd st ns newLinks).1.
Proof.
  intros Hst Hns. unfold uniqueNodeIds, nodeIds.
  rewrite mergeUpdater_nodes.
  rewrite (list_fmap_ext _ (λ r, node_id (heap st r)))
    by (intros ? r _; apply mergeUpdater_same_ids).
  rewrite fmap_app. apply NoDup_app. split; [done|]. split.
  - intros i Hi Hnew. apply list_elem_of_fmap in Hnew as (r & -> & Hr).
    unfold uniqueNewNodes in Hr. apply list_elem_of_filter in Hr as [Hnot _].
    apply Hnot. unfold existingIds. by rewrite elem_of_list_to_set.
  - apply (sublist_NoDup _ _ Hns).
    apply fmap_sublist. unfold uniqueNewNodes. apply sublist_filter.
Qed.

Lemma mergeUpdater_unique_triples rnd st ns ls :
  uniqueLinkTriples st →
  NoDup (linkTriple (heap st) <$> ls) →
  uniqueLinkTriples (mergeUpdater rnd st ns (JsArray ls)).1.
Proof.
  intros Hst Hls. unfold uniqueLinkTriples.
  set (h' := heap (mergeUpdater rnd st ns (JsArray ls)).1).
  assert (Hids : ∀ r, node_id (h' r) = node_id (heap st r))
    by (intros r; apply mergeUpdater_same_ids).
  assert (Htr : ∀ l, linkTriple h' l = linkTriple (heap st) l).
  { intros l. unfold linkTriple.
    by rewrite !(endpointId_same_ids (heap st) h' Hids). }
  rewrite (list_fmap_ext _ (linkTriple (heap st))) by (intros ? l _; apply Htr).
  rewrite mergeUpdater_links, fmap_app. apply NoDup_app. split; [done|]. split.
  - intros t Ht Hnew. apply list_elem_of_fmap in Hnew as (l & -> & Hl).
    unfold uniqueNewLinks in Hl. apply list_elem_of_filter in Hl as [Hnot _].
    apply list_elem_of_fmap in Ht as (l0 & Heq & Hl0).
    apply Hnot. unfold existingLinkSigs.
    rewrite elem_of_list_to_set, list_elem_of_fmap. exists l0. split; [|done].
    unfold placedHeap.
    rewrite !(linkSig_same_ids (heap st) _ (placeNodes_id _ _ _ _)).
    by apply linkSig_of_triple.
  - apply (sublist_NoDup _ _ Hls).
    apply fmap_sublist. unfold uniqueNewLinks. apply sublist_filter.
Qed.

(** C6.  The code at the failing input: the seeded store has unique ids and
    unique triples; the batch offers the id [UN] twice and one link twice;
    the merge appends both nodes and both links, and the merged graph has
    two nodes with the id [UN] and two links with one identity triple. *)
Theorem mergeGraphData_duplicates_within_batch :
  uniqueNodeIds stateTwoUN ∧ uniqueLinkTriples stateTwoUN
  ∧ mergeTwoUN = Returns (stateTwoUN_merged, true)
  ∧ nodes (graphData stateTwoUN_merged)
    = nodes (graphData stateTwoUN) ++ [7%nat; 8%nat]
  ∧ node_id (heap stateTwoUN_merged 7%nat)
    = node_id (heap stateTwoUN_merged 8%nat)
  ∧ links (graphData stateTwoUN_merged) = [linkMemberOf; linkMemberOf]
  ∧ ¬ uniqueNodeIds stateTwoUN_merged
  ∧ ¬ uniqueLinkTriples stateTwoUN_merged.
Proof.
  split; [|split; [|split; [|split; [|split; [|split; [|split]]]]]].
  - apply (bool_decide_unpack _). vm_compute. reflexivity.
  - apply (bool_decide_unpack _). vm_compute. reflexivity.
  - reflexivity.
  - reflexivity.
  - reflexivity.
  - reflexivity.
  - apply (bool_decide_eq_false_1 (uniqueNodeIds stateTwoUN_merged)).
    vm_compute. reflexivity.
  - apply (bool_decide_eq_false_1 (uniqueLinkTriples stateTwoUN_merged)).
    vm_compute. reflexivity.
Qed.

(** ** Arguments that are not arrays *)




(** ** The filtered view *)

Lemma findNodeById_is_Some h rs i :
  is_Some (findNodeById h rs i) ↔ ∃ r, r ∈ rs ∧ node_id (h r) = i.
Proof.
  unfold findNodeById. split.
  - intros [r Hf]. apply find_some in Hf as [Hin Hid].
    exists r. split; [by apply list_elem_of_In|].
    by apply bool_decide_eq_true in Hid.
  - intros (r & Hin & Hid).
    destruct (List.find _ rs) as [r'|] eqn:Hf; [by eexists|].
    apply list_elem_of_In in Hin.
    pose proof (find_none _ _ Hf r Hin) as Hno. simpl in Hno.
    by rewrite bool_decide_eq_false in Hno.
Qed.

(** C5.  Whatever the type filter, the ontology toggle and the search
    term, a link is in the filtered links exactly when it is a link of the
    graph and both its resolved endpoints are ids of filtered nodes; so
    every emitted link has both endpoints in the emitted node set. *)
Theorem filteredLinks_sound_and_complete (f : ViewFilters) (st : AppState)
    (l : GraphLink) :
  l ∈ filteredLinks f st ↔
    l ∈ links (graphData st)
    ∧ (∃ r, r ∈ filteredNodes f st
            ∧ node_id (heap st r) = endpointId (heap st) (link_source l))
    ∧ (∃ r, r ∈ filteredNodes f st
            ∧ node_id (heap st r) = endpointId (heap st) (link_target l)).
Proof.
  unfold filteredLinks. rewrite list_elem_of_filter. unfold keepLink.
  rewrite !findNodeById_is_Some. tauto.
Qed.

Lemma NodeType_value_inj (t t' : NodeType) :
  NodeType_value t = NodeType_value t' → t = t'.
Proof. destruct t, t'; simpl; intros H; first [reflexivity | discriminate H]. Qed.

Lemma keepNode_OnlyType (t : NodeType) so s node :
  keepNode (mkFilters (OnlyType t) so s) node = true ↔
    node_type node = t ∧ (t = Class → so = true).
Proof.
  unfold keepNode. simpl.
  destruct (decide (node_type node = t)) as [Ht|Ht].
  - rewrite (bool_decide_eq_false_2 (node_type node ≠ t)) by tauto.
    destruct so; simpl.
    + tauto.
    + destruct (decide (node_type node = Class)) as [Hc|Hc].
      * rewrite (bool_decide_eq_true_2 _ Hc). split; [done|].
        intros [_ Himp]. apply Himp. apply NodeType_value_inj. congruence.
      * rewrite (bool_decide_eq_false_2 _ Hc). split; [|done].
        intros _. split; [done|]. intros Htc. subst t. done.
  - rewrite (bool_decide_eq_true_2 (node_type node ≠ t)) by done.
    destruct (negb so && _); split; first [discriminate | tauto].
Qed.

(** C2 (as amended).  With the type filter set to a kind, the filtered
    nodes are exactly the nodes of that kind, and Class nodes get no
    exemption: a Class node is kept only when the kind asked for is Class
    and the ontology layer is shown.  For the Person filter on the graph of
    one Person linked to one Organization, the view is the Person node
    alone: neither the pre-seeded Person class, nor the Organization, nor
    the link. *)
Theorem filteredNodes_of_type :
  (∀ (t : NodeType) (so : bool) (s : string) (st : AppState) (r : loc),
     r ∈ filteredNodes (mkFilters (OnlyType t) so s) st ↔
       r ∈ nodes (graphData st)
       ∧ node_type (heap st r) = t
       ∧ (t = Class → so = true))
  ∧ filteredNodes personFilter statePersonOrg = [7%nat]
  ∧ filteredLinks personFilter statePersonOrg = [].
Proof.
  split; [|split; reflexivity].
  intros t so s st r. unfold filteredNodes.
  rewrite list_elem_of_filter, keepNode_OnlyType. tauto.
Qed.

(** C2, the claim as stated, fails: in that graph the Person class node is
    at location 0, it is a node of the graph and the ontology layer is
    shown, yet the Person filter leaves it out of the view. *)
Lemma filteredNodes_drops_class_nodes :
  showOntology personFilter = true
  ∧ 0%nat ∈ nodes (graphData statePersonOrg)
  ∧ heap statePersonOrg 0%nat = standardClass "Person"
  ∧ node_type (heap statePersonOrg 0%nat) = Class
  ∧ 0%nat ∉ filteredNodes personFilter statePersonOrg.
Proof.
  repeat split; try reflexivity.
  - left.
  - change (filteredNodes personFilter statePersonOrg) with [7%nat].
    by intros [=]%list_elem_of_singleton.
Qed.

(** ** Heuristic linking of a fragment *)

Lemma hasTypeLink_true ls node :
  hasTypeLink ls node = true ↔
    ∃ l, l ∈ ls ∧ link_source l = EndId (node_id node)
         ∧ link_predicate l = "rdf:type".
Proof.
  unfold hasTypeLink. rewrite existsb_exists. split.
  - intros (l & Hin & Hl). apply andb_true_iff in Hl as [Hs Hp].
    exists l. split; [by apply list_elem_of_In|].
    apply bool_decide_eq_true in Hp. split; [|done].
    destruct (link_source l) as [s|]; simpl in Hs; [|done].
    apply bool_decide_eq_true in Hs. by subst.
  - intros (l & Hin & Hs & Hp). exists l. split; [by apply list_elem_of_In|].
    rewrite Hs. simpl. apply andb_true_iff. split; by apply bool_decide_eq_true.
Qed.

Lemma NodeType_value_truthy (t : NodeType) :
  truthyString (NodeType_value t) = true.
Proof. by destruct t. Qed.

Lemma truthyString_true s : truthyString s = true ↔ s ≠ "".
Proof.
  unfold truthyString. case_bool_decide; simpl; split; try done.
Qed.

(** The loop of a heuristic: [step] is one iteration, and [pushes r] holds
    of the nodes for which the iteration may push a link. *)
Section ForEachNode.
Variable h : Heap.
Variable step : list GraphLink → loc → list GraphLink.
Variable pushes : loc → Prop.
Hypothesis step_keeps : ∀ ls r l, l ∈ ls → l ∈ step ls r.
Hypothesis step_types : ∀ ls r,
  node_type (h r) ≠ Class → pushes r → hasTypeLink (step ls r) (h r) = true.

Lemma forEach_keeps ns : ∀ ls l, l ∈ ls → l ∈ fold_left step ns ls.
Proof using step_keeps.
  induction ns as [|r ns IH]; intros ls l Hl; simpl; [done|].
  apply IH. by apply step_keeps.
Qed.

Lemma forEach_types ns : ∀ ls r,
  r ∈ ns → node_type (h r) ≠ Class → pushes r →
  hasTypeLink (fold_left step ns ls) (h r) = true.
Proof using step_keeps step_types.
  induction ns as [|r0 ns IH]; intros ls r Hr Hty Hp0; simpl.
  - by apply elem_of_nil in Hr.
  - apply elem_of_cons in Hr as [->|Hr]; [|by apply IH].
    specialize (step_types ls r0 Hty Hp0).
    apply hasTypeLink_true in step_types as (l & Hl & Hs & Hp).
    apply hasTypeLink_true. exists l. split; [|done].
    by apply forEach_keeps.
Qed.
End ForEachNode.

Lemma extractLinkStep_keeps h ls r l : l ∈ ls → l ∈ extractLinkStep h ls r.
Proof.
  intros Hl. unfold extractLinkStep.
  repeat case_match; try done; apply elem_of_app; by left.
Qed.

Lemma extractLinkStep_types h ls r :
  node_type (h r) ≠ Class → node_type (h r) ≠ "" →
  hasTypeLink (extractLinkStep h ls r) (h r) = true.
Proof.
  intros Hty Hne. unfold extractLinkStep.
  rewrite (bool_decide_eq_false_2 _ Hty).
  rewrite (proj2 (truthyString_true _) Hne).
  destruct (hasTypeLink ls (h r)) eqn:Hhas; [done|].
  apply hasTypeLink_true. exists (typeLinkOf (h r)).
  split; [|done]. apply elem_of_app. right. left.
Qed.

Lemma shaclLinkStep_keeps h ls r l : l ∈ ls → l ∈ shaclLinkStep h ls r.
Proof.
  intros Hl. unfold shaclLinkStep.
  repeat case_match; try done; apply elem_of_app; by left.
Qed.

Lemma shaclLinkStep_types h ls r :
  node_type (h r) ≠ Class → True →
  hasTypeLink (shaclLinkStep h ls r) (h r) = true.
Proof.
  intros Hty _. unfold shaclLinkStep. rewrite (bool_decide_eq_false_2 _ Hty).
  destruct (hasTypeLink ls (h r)) eqn:Hhas; [done|].
  apply hasTypeLink_true. exists (typeLinkOf (h r)).
  split; [|done]. apply elem_of_app. right. left.
Qed.


Section HeuristicAdds.
Variable h : Heap.
Variable step : list GraphLink → loc → list GraphLink.
Variable pushes : loc → Prop.
Hypothesis step_cases : ∀ ls r,
  step ls r = ls
  ∨ (step ls r = ls ++ [typeLinkOf (h r)]
     ∧ node_type (h r) ≠ Class ∧ hasTypeLink ls (h r) = false ∧ pushes r).
Hypothesis step_typed : ∀ ls r,
  node_type (h r) = Class ∨ hasTypeLink ls (h r) = true → step ls r = ls.


(** When every non-Class node already has a type link, the loop adds
    nothing. *)
Lemma forEach_typed ns : ∀ ls,
  (∀ r, r ∈ ns → node_type (h r) ≠ Class → hasTypeLink ls (h r) = true) →
  fold_left step ns ls = ls.
Proof using step_typed.
  induction ns as [|r ns IH]; intros ls Hall; simpl; [done|].
  assert (Hs : step ls r = ls).
  { apply step_typed. destruct (decide (node_type (h r) = Class)); [by left|].
    right. apply Hall; [left|done]. }
  rewrite Hs. apply IH. intros r' Hr'. apply Hall. by right.
Qed.
(** When no iteration pushes, the loop returns the links it started from. *)
Lemma forEach_fixed ns : ∀ ls,
  (∀ r, r ∈ ns → step ls r = ls) → fold_left step ns ls = ls.
Proof.
  induction ns as [|r ns IH]; intros ls Hall; simpl; [done|].
  rewrite (Hall r) by left. apply IH. intros r' Hr'. apply Hall. by right.
Qed.
End HeuristicAdds.


(** A node whose type is the empty string fails the test
    [if (targetClassId)]: the iteration pushes nothing. *)
Lemma extractLinkStep_untyped h ls r :
  node_type (h r) = "" → extractLinkStep h ls r = ls.
Proof.
  intros He. unfold extractLinkStep. rewrite He. simpl.
  by destruct (hasTypeLink ls (h r)).
Qed.

Lemma extractLinkStep_typed h ls r :
  node_type (h r) = Class ∨ hasTypeLink ls (h r) = true →
  extractLinkStep h ls r = ls.
Proof.
  unfold extractLinkStep. intros [Hc| ->].
  - by rewrite (bool_decide_eq_true_2 _ Hc).
  - by case_bool_decide.
Qed.


Lemma shaclLinkStep_typed h ls r :
  node_type (h r) = Class ∨ hasTypeLink ls (h r) = true →
  shaclLinkStep h ls r = ls.
Proof.
  unfold shaclLinkStep. intros [Hc| ->].
  - by rewrite (bool_decide_eq_true_2 _ Hc).
  - by case_bool_decide.
Qed.

(** Both enrichment functions return a fragment in which a non-Class node
    has a link from its id with predicate [rdf:type]: every such node for
    [performShaclScan], and for [extractKnowledgeGraph] every such node
    whose type is not the empty string. *)
Lemma fragment_typed apiKey h ctx reply kg r :
  (extractKnowledgeGraph apiKey h ctx reply = Returns kg
   ∧ node_type (h r) ≠ "")
  ∨ performShaclScan apiKey h reply = Returns kg →
  r ∈ frag_nodes kg → node_type (h r) ≠ Class →
  hasTypeLink (frag_links kg) (h r) = true.
Proof.
  intros Hkg Hr Hty.
  unfold extractKnowledgeGraph, performShaclScan in Hkg.
  destruct (initAi apiKey) as [key|]; [|by destruct Hkg as [[? _]|?]].
  destruct reply as [|dn dl]; simpl in Hkg.
  { destruct Hkg as [[[= <-] _]|[= <-]]; by apply elem_of_nil in Hr. }
  destruct Hkg as [[[= <-] Hne]|[= <-]]; simpl in *.
  - pose proof (forEach_types h (extractLinkStep h)
                  (λ r, node_type (h r) ≠ "") (extractLinkStep_keeps h)
                  (extractLinkStep_types h) _ (arrayOrEmpty dl) r Hr Hty Hne)
      as Hhas.
    apply hasTypeLink_true in Hhas as (l & Hl & Hs & Hp).
    apply hasTypeLink_true. exists (markOntologyLink ctx l).
    split; [|done]. apply list_elem_of_fmap. eauto.
  - by apply (forEach_types h (shaclLinkStep h) (λ _, True)
                (shaclLinkStep_keeps h) (shaclLinkStep_types h)).
Qed.




(** ** fetchGlobalIntel *)

Lemma getProperty_readable v name :
  readable v = true → ∃ p, getProperty v name = Returns p.
Proof.
  destruct v; simpl; try discriminate; intros _; eauto.
  destruct (List.find _ fields); eauto.
Qed.

Lemma buildArticle_readable clock response index item :
  readable item = true →
  ∃ a, buildArticle clock response index item = Returns a.
Proof.
  intros Hr. unfold buildArticle.
  destruct (getProperty_readable item "title" Hr) as [p1 ->].
  destruct (getProperty_readable item "summary" Hr) as [p2 ->].
  destruct (getProperty_readable item "source" Hr) as [p3 ->].
  destruct (getProperty_readable item "riskLevel" Hr) as [p4 ->].
  destruct (getProperty_readable item "semanticTags" Hr) as [p5 ->].
  simpl. eauto.
Qed.

Lemma buildArticle_unreadable clock response index item :
  readable item = false →
  buildArticle clock response index item = Throws TypeError.
Proof. destruct item; simpl; try discriminate; done. Qed.

(** The [map] returns one article per element when every element can be
    read, and throws otherwise. *)
Lemma mapArticles_readable clock response data : ∀ index,
  forallb readable data = true →
  ∃ articles, mapArticles clock response index data = Returns articles
              ∧ length articles = length data.
Proof.
  induction data as [|item rest IH]; intros index Hall; simpl.
  - by exists [].
  - apply andb_true_iff in Hall as [Hitem Hrest].
    destruct (buildArticle_readable clock response index item Hitem) as [a ->].
    destruct (IH (S index) Hrest) as (others & -> & Hlen).
    simpl. exists (a :: others). split; [done|]. simpl. by rewrite Hlen.
Qed.

Lemma mapArticles_unreadable clock response data : ∀ index,
  forallb readable data = false →
  ∃ e, mapArticles clock response index data = Throws e.
Proof.
  induction data as [|item rest IH]; intros index Hall; simpl; [done|].
  simpl in Hall. destruct (readable item) eqn:Hitem.
  - destruct (buildArticle_readable clock response index item Hitem) as [a ->].
    destruct (IH (S index) Hall) as [e ->]. simpl. eauto.
  - rewrite buildArticle_unreadable by done. simpl. eauto.
Qed.

(** C10 (as amended).  With no usable API key the promise rejects with
    [API Key not found], and that is its only rejection.  With a key it
    always resolves: with the one fallback article ([mock-1], [HIGH]) when
    the model call throws; with no article when the text cannot be parsed;
    otherwise with the articles built from the parsed array, or from the
    list recovered from a reply that is not an array (its first array-valued
    property, else the empty list), one article per element; except that
    when an element of that list is [null], building throws and the promise
    resolves with the fallback article. *)
Theorem fetchGlobalIntel_settles (JSON_parse : string → option JsValue)
    (generateContent : string → GenerateContentOutcome) (clock : Clock)
    (apiKey topic : option string) :
  let result := fetchGlobalIntel JSON_parse generateContent clock apiKey topic in
  (∀ e, result = Throws e → e = API_KEY_NOT_FOUND ∧ initAi apiKey = None)
  ∧ ((initAi apiKey = None ∧ result = Throws API_KEY_NOT_FOUND)
     ∨ (initAi apiKey = apiKey ∧ is_Some apiKey ∧
        match generateContent (intelPrompt topic) with
        | ContentThrows _ =>
            result = Returns [fallbackArticle clock]
            ∧ article_id (fallbackArticle clock) = "mock-1"
            ∧ article_riskLevel (fallbackArticle clock) = VString "HIGH"
        | ContentReturns response =>
            match JSON_parse (textOrEmptyArray (response_text response)) with
            | None => result = Returns []
            | Some data =>
                if forallb readable (ensureArray data)
                then ∃ articles,
                  mapArticles clock response 0 (ensureArray data) = Returns articles
                  ∧ length articles = length (ensureArray data)
                  ∧ result = Returns articles
                else result = Returns [fallbackArticle clock]
            end
        end)).
Proof.
  intros result. subst result. unfold fetchGlobalIntel.
  destruct (initAi apiKey) as [key|] eqn:Hkey.
  - assert (Hsome : Some key = apiKey ∧ is_Some apiKey).
    { unfold initAi in Hkey. destruct apiKey as [k|]; [|done].
      destruct (truthyString k); [|done]. injection Hkey as ->. eauto. }
    split.
    { intros e He. destruct (fetchAttempt _ _ _ _); discriminate. }
    right. destruct Hsome as [Heq Hsome]. split; [done|]. split; [done|].
    unfold fetchAttempt.
    destruct (generateContent (intelPrompt topic)) as [e|response]; [done|].
    destruct (JSON_parse _) as [data|]; simpl; [|done].
    destruct (forallb readable (ensureArray data)) eqn:Hall.
    + destruct (mapArticles_readable clock response _ 0 Hall) as (arts & Hm & Hlen).
      exists arts. by rewrite Hm.
    + by destruct (mapArticles_unreadable clock response _ 0 Hall) as [e ->].
  - split; [|by left]. intros e [= <-]. done.
Qed.

(** C10, the claim as stated, fails: with a key, a reply that is not an
    array but an object whose array holds [null] does not resolve with
    articles built from the recovered list [[null]] (the map throws) nor
    from the empty list, but with the fallback article. *)
Lemma fetchGlobalIntel_null_item_gives_fallback :
  parseNullItem (textOrEmptyArray (response_text replyWithNullItem))
    = Some (VObject [("items", VArray [VNull])])
  ∧ isArray (VObject [("items", VArray [VNull])]) = false
  ∧ ensureArray (VObject [("items", VArray [VNull])]) = [VNull]
  ∧ mapArticles fixedClock replyWithNullItem 0 [VNull] = Throws TypeError
  ∧ nullItemResult = Returns [fallbackArticle fixedClock]
  ∧ nullItemResult ≠ Returns []
  ∧ ¬ ∃ articles,
        mapArticles fixedClock replyWithNullItem 0 [VNull] = Returns articles
        ∧ nullItemResult = Returns articles.
Proof.
  repeat split; try reflexivity; try discriminate.
  intros (articles & Hm & _). discriminate.
Qed.

(** ** The background queue *)

Lemma schedule_split due task pending :
  ∃ pre post, schedule due task pending = pre ++ (due, task) :: post
              ∧ pending = pre ++ post.
Proof.
  induction pending as [|[d t] rest IH]; simpl.
  - by exists [], [].
  - case_decide.
    + destruct IH as (pre & post & -> & ->). by exists ((d, t) :: pre), post.
    + by exists [], ((d, t) :: rest).
Qed.

Lemma noTimer_schedule_settlement due i article pending :
  noTimer pending → noTimer (schedule due (ExtractSettles i article) pending).
Proof.
  intros Hp. destruct (schedule_split due (ExtractSettles i article) pending)
    as (pre & post & -> & ->).
  apply Forall_app in Hp as [Hpre Hpost].
  apply Forall_app. split; [done|]. by constructor.
Qed.

Lemma pendingSettles_schedule_settlement due i article pending :
  pendingSettles (schedule due (ExtractSettles i article) pending)
  ≡ₚ (due, AnalysisSettled i) :: pendingSettles pending.
Proof.
  destruct (schedule_split due (ExtractSettles i article) pending)
    as (pre & post & -> & ->).
  unfold pendingSettles. rewrite !omap_app. simpl.
  by rewrite Permutation_middle.
Qed.

Lemma startsOf_app tr1 tr2 : startsOf (tr1 ++ tr2) = startsOf tr1 ++ startsOf tr2.
Proof. apply omap_app. Qed.

Lemma startsOf_pendingSettles pending : startsOf (pendingSettles pending) = [].
Proof.
  induction pending as [|[d [i|i a]] rest IH]; simpl; done.
Qed.

Section QueueRuns.
Variable items : list NewsArticle.
Variable latency : nat → nat.

Lemma runLoop_idle fuel ids tr :
  runLoop items latency fuel (mkLoop [] ids tr) = mkLoop [] ids tr.
Proof. by destruct fuel. Qed.

(** With only settlements pending, they happen in agenda order and the
    loop ends. *)
Lemma runLoop_noTimer fuel : ∀ pending ids tr,
  noTimer pending → (length pending ≤ fuel)%nat →
  let s' := runLoop items latency fuel (mkLoop pending ids tr) in
  agenda s' = [] ∧ trace s' = tr ++ pendingSettles pending.
Proof.
  induction fuel as [|fuel IH]; intros pending ids tr Hno Hlen; simpl.
  - destruct pending; simpl in Hlen; [|lia]. by rewrite app_nil_r.
  - destruct pending as [|[now task] rest]; simpl; [by rewrite app_nil_r|].
    apply Forall_cons in Hno as [Htask Hrest].
    destruct task as [i|i article]; [done|]. simpl.
    simpl in Hlen.
    destruct (IH rest (ids ∖ {[article_id article]})
                (tr ++ [(now, AnalysisSettled i)]) Hrest ltac:(lia))
      as [Hag Htr].
    split; [done|]. rewrite Htr. by rewrite <- app_assoc.
Qed.

(** With one queue timer pending among settlements, everything pending
    and everything the timer leads to happens, and the loop ends. *)
Lemma runLoop_oneTimer fuel : ∀ pre due i post ids tr,
  noTimer pre → noTimer post → (i < length items)%nat →
  (length pre + length post + 2 * (length items - i) ≤ fuel)%nat →
  let s' := runLoop items latency fuel
              (mkLoop (pre ++ (due, QueueTimer i) :: post) ids tr) in
  agenda s' = []
  ∧ startsOf (trace s')
    = startsOf tr ++ startsOf (eventsFrom latency due i (length items - i))
  ∧ trace s' ≡ₚ tr ++ pendingSettles (pre ++ post)
                   ++ eventsFrom latency due i (length items - i).
Proof.
  induction fuel as [|fuel IH]; intros pre due i post ids tr Hpre Hpost Hi Hfuel.
  { lia. }
  destruct pre as [|[d0 t0] pre'].
  - (* the timer is first: iteration [i] runs *)
    simpl. destruct (lookup_lt_is_Some_2 items i Hi) as [article Hart].
    rewrite Hart.
    replace (length items - i)%nat with (S (length items - S i)) by lia.
    simpl eventsFrom.
    destruct (decide (S i < length items)%nat) as [Hnext|Hlast].
    + change (pacingDelay (S i)) with 2000%nat.
      set (pending := schedule (due + latency i) (ExtractSettles i article) post).
      assert (Hpending : noTimer pending)
        by (by apply noTimer_schedule_settlement).
      destruct (schedule_split (due + 2000) (QueueTimer (S i)) pending)
        as (pre' & post' & -> & Hsplit).
      assert (Hno : noTimer pre' ∧ noTimer post').
      { rewrite Hsplit in Hpending. by apply Forall_app in Hpending. }
      destruct Hno as [Hpre' Hpost'].
      assert (Hlen : (length pre' + length post' = S (length post))%nat).
      { rewrite <- length_app, <- Hsplit. subst pending.
        destruct (schedule_split (due + latency i) (ExtractSettles i article) post)
          as (p1 & p2 & -> & ->).
        rewrite !length_app. simpl. lia. }
      simpl in Hfuel.
      destruct (IH pre' (due + 2000)%nat (S i) post'
                  ({[article_id article]} ∪ ids)
                  (tr ++ [(due, AnalysisStarted i)]) Hpre' Hpost' Hnext
                  ltac:(lia)) as (Hag & Hst & Htr).
      split; [done|]. split.
      * rewrite Hst, startsOf_app. simpl. by rewrite <- app_assoc.
      * rewrite Htr, <- Hsplit. subst pending.
        rewrite pendingSettles_schedule_settlement.
        rewrite <- !app_assoc. apply Permutation_app_head. simpl.
        by rewrite <- !Permutation_middle.
    + assert (length items - S i = 0)%nat as -> by lia. simpl eventsFrom.
      set (pending := schedule (due + latency i) (ExtractSettles i article) post).
      assert (Hpending : noTimer pending)
        by (by apply noTimer_schedule_settlement).
      assert (Hlen : (length pending = S (length post))%nat).
      { subst pending.
        destruct (schedule_split (due + latency i) (ExtractSettles i article) post)
          as (p1 & p2 & -> & ->).
        rewrite !length_app. simpl. lia. }
      simpl in Hfuel.
      destruct (runLoop_noTimer fuel pending ({[article_id article]} ∪ ids)
                  (tr ++ [(due, AnalysisStarted i)]) Hpending ltac:(lia))
        as (Hag & Htr).
      split; [done|]. split.
      * rewrite Htr, !startsOf_app, startsOf_pendingSettles. simpl.
        by rewrite app_nil_r.
      * rewrite Htr. subst pending.
        rewrite pendingSettles_schedule_settlement.
        rewrite <- !app_assoc. apply Permutation_app_head. simpl.
        exact (Permutation_app_comm [_; _] _).
  - (* a settlement is first *)
    apply Forall_cons in Hpre as [Ht0 Hpre'].
    destruct t0 as [j|j article]; [done|]. simpl. simpl in Hfuel.
    destruct (IH pre' due i post (ids ∖ {[article_id article]})
                (tr ++ [(d0, AnalysisSettled j)]) Hpre' Hpost Hi ltac:(lia))
      as (Hag & Hst & Htr).
    split; [done|]. split.
    + rewrite Hst, startsOf_app. simpl. by rewrite app_nil_r.
    + rewrite Htr. by rewrite <- !app_assoc.
Qed.
End QueueRuns.

Lemma flat_map_seq_S {A} (f : nat → list A) n : ∀ start,
  flat_map f (seq (S start) n) = flat_map (λ k, f (S k)) (seq start n).
Proof.
  induction n as [|n IH]; intros start; simpl; [done|]. by rewrite IH.
Qed.

Section QueueClosedForms.
Variable items : list NewsArticle.
Variable latency : nat → nat.

(** The events of [count] items in closed form. *)
Lemma eventsFrom_flat_map count : ∀ due i,
  eventsFrom latency due i count
  = flat_map (λ k, [(due + 2000 * k, AnalysisStarted (i + k));
                    (due + 2000 * k + latency (i + k), AnalysisSettled (i + k))])
             (seq 0 count).
Proof.
  induction count as [|count IH]; intros due i; simpl; [done|].
  rewrite !Nat.add_0_r. do 2 f_equal.
  rewrite IH, flat_map_seq_S.
  apply flat_map_ext. intros k.
  replace (due + 2000 + 2000 * k)%nat with (due + 2000 * S k)%nat by lia.
  by replace (S i + k)%nat with (i + S k)%nat by lia.
Qed.

Lemma startsOf_eventsFrom count : ∀ due i,
  startsOf (eventsFrom latency due i count)
  = (λ k, (due + 2000 * k, i + k)%nat) <$> seq 0 count.
Proof.
  induction count as [|count IH]; intros due i; simpl; [done|].
  rewrite !Nat.add_0_r. f_equal.
  change (startsOf (eventsFrom latency (due + 2000) (S i) count)
          = (λ k, (due + 2000 * k, i + k)%nat) <$> seq 1 count).
  rewrite IH, <- fmap_S_seq, <- list_fmap_compose.
  apply list_fmap_ext. intros _ k _. simpl. f_equal; lia.
Qed.

(** When every call settles within the pacing delay, the loop alternates
    between one start and its settlement. *)
Lemma runLoop_sequential count : ∀ fuel due i ids tr,
  (∀ k, (k < length items)%nat → (latency k < 2000)%nat) →
  (i + count = length items)%nat → (0 < count)%nat →
  (2 * count ≤ fuel)%nat →
  trace (runLoop items latency fuel (mkLoop [(due, QueueTimer i)] ids tr))
  = tr ++ eventsFrom latency due i count.
Proof.
  induction count as [|count IH]; intros fuel due i ids tr Hquick Hn Hpos Hfuel.
  { lia. }
  destruct fuel as [|[|fuel]]; [lia..|].
  assert (Hi : (i < length items)%nat) by lia.
  destruct (lookup_lt_is_Some_2 items i Hi) as [article Hart].
  cbn [runLoop agenda runTask processingIds trace]. rewrite Hart.
  pose proof (Hquick i Hi) as Hlat.
  destruct (decide (S i < length items)%nat) as [Hnext|Hlast].
  - cbn [agenda schedule]. change (pacingDelay (S i)) with 2000%nat.
    rewrite decide_True by lia.
    cbn [agenda runTask processingIds trace].
    rewrite (IH fuel (due + 2000)%nat (S i)) by (try done; lia).
    simpl. by rewrite <- !app_assoc.
  - cbn [agenda schedule runTask processingIds trace].
    rewrite runLoop_idle. assert (count = 0%nat) as -> by lia.
    simpl. by rewrite <- !app_assoc.
Qed.
End QueueClosedForms.

(** C9 (as amended).  The queue starts the subjects one at a time in
    enqueue order, the first at once and each next one 2000 ms after the
    one before; it does not wait for the enrichment call of a subject:
    subject [i] settles (is merged, its mark cleared) [latency i] after its
    own start, whatever the other subjects do, and every subject starts and
    settles exactly once.  When every call settles within the pacing delay,
    and only then guaranteed, each subject settles before the next starts. *)
Theorem processBackgroundQueue_paces_the_starts (items : list NewsArticle)
    (latency : nat → nat) :
  let s := processBackgroundQueue items latency in
  agenda s = []
  ∧ startsOf (trace s) = (λ i, (2000 * i, i)%nat) <$> seq 0 (length items)
  ∧ trace s ≡ₚ
      flat_map (λ i, [(2000 * i, AnalysisStarted i);
                      (2000 * i + latency i, AnalysisSettled i)]%nat)
               (seq 0 (length items))
  ∧ ((∀ i, (i < length items)%nat → (latency i < 2000)%nat) →
     trace s =
       flat_map (λ i, [(2000 * i, AnalysisStarted i);
                       (2000 * i + latency i, AnalysisSettled i)]%nat)
                (seq 0 (length items))).
Proof.
  intros s. subst s. unfold processBackgroundQueue, queueStart.
  destruct (decide (0 < length items)%nat) as [Hpos|Hempty].
  - change (pacingDelay 0) with 0%nat.
    destruct (runLoop_oneTimer items latency (2 * length items) [] 0%nat 0%nat []
                ∅ []) as (Hag & Hst & Htr);
      [constructor..|done|simpl; lia|].
    rewrite Nat.sub_0_r in Hst, Htr. cbn [app] in Hag, Hst, Htr.
    split; [done|]. split; [|split].
    + rewrite Hst. cbn [startsOf omap app]. by rewrite startsOf_eventsFrom.
    + rewrite Htr. cbn [pendingSettles omap app].
      by rewrite eventsFrom_flat_map.
    + intros Hquick.
      rewrite (runLoop_sequential items latency (length items)) by (try done; lia).
      cbn [app]. by rewrite eventsFrom_flat_map.
  - assert (length items = 0%nat) as -> by lia. simpl. done.
Qed.

Lemma processBackgroundQueue_paces_the_starts_witness :
  (∀ i, (i < length twoArticles)%nat → (quickCalls i < 2000)%nat)
  ∧ trace (processBackgroundQueue twoArticles quickCalls)
    = flat_map (λ i, [(2000 * i, AnalysisStarted i);
                      (2000 * i + quickCalls i, AnalysisSettled i)]%nat)
               (seq 0 (length twoArticles)).
Proof.
  split; [intros i _; unfold quickCalls; lia|].
  apply (proj2 (proj2 (proj2
           (processBackgroundQueue_paces_the_starts twoArticles quickCalls)))).
  intros i _. unfold quickCalls. lia.
Defined.

(** C9, the claim as stated, fails: with two subjects, when the call for
    the first takes 5 s, the second subject starts at 2 s while the first
    is still in flight (both ids are in [processingIds]), and the second is
    merged before the first. *)
Lemma second_subject_overtakes_first :
  trace (processBackgroundQueue twoArticles slowThenFast)
    = [(0, AnalysisStarted 0); (2000, AnalysisStarted 1);
       (2100, AnalysisSettled 1); (5000, AnalysisSettled 0)]%nat
  ∧ trace (runLoop twoArticles slowThenFast 2 (queueStart twoArticles))
    = [(0, AnalysisStarted 0); (2000, AnalysisStarted 1)]%nat
  ∧ size (processingIds
            (runLoop twoArticles slowThenFast 2 (queueStart twoArticles))) = 2%nat
  ∧ settlesOf (trace (processBackgroundQueue twoArticles slowThenFast))
    = [(2100, 1); (5000, 0)]%nat.
Proof. repeat split; vm_compute; reflexivity. Qed.

(** * Properties beyond the claims *)

(** ** mergeGraphData *)

(** X1.  A batch whose candidate nodes carry pairwise distinct ids keeps
    the node ids of the store pairwise distinct. *)
Theorem mergeGraphData_keeps_ids_unique (rnd : RandomSource) (st st' : AppState)
    (ns : list loc) (newLinks : JsArg GraphLink) (b : bool) :
  uniqueNodeIds st →
  NoDup ((λ r, node_id (heap st r)) <$> ns) →
  mergeGraphData rnd st (JsArray ns) newLinks = Returns (st', b) →
  uniqueNodeIds st'.
Proof.
  intros Hst Hns [= Hm].
  pose proof (mergeUpdater_unique_ids rnd st ns newLinks Hst Hns) as Hu.
  by rewrite Hm in Hu.
Qed.

Lemma mergeGraphData_keeps_ids_unique_witness :
  uniqueNodeIds stateUN
  ∧ NoDup ((λ r, node_id (heap stateUN r)) <$> [7%nat])
  ∧ mergeGraphData constantRandom stateUN (JsArray [7%nat]) (JsArray [linkMemberOf])
    = Returns (stateUN_merged, true)
  ∧ uniqueNodeIds stateUN_merged.
Proof.
  assert (H1 : uniqueNodeIds stateUN)
    by (apply (bool_decide_unpack _); vm_compute; reflexivity).
  assert (H2 : NoDup ((λ r, node_id (heap stateUN r)) <$> [7%nat]))
    by (apply (bool_decide_unpack _); vm_compute; reflexivity).
  split; [done|]. split; [done|]. split; [reflexivity|].
  apply (mergeGraphData_keeps_ids_unique constantRandom stateUN stateUN_merged
           [7%nat] (JsArray [linkMemberOf]) true H1 H2).
  reflexivity.
Defined.

(** X2.  A batch whose candidate links carry pairwise distinct identity
    triples keeps the triples of the store pairwise distinct. *)
Theorem mergeGraphData_keeps_triples_unique (rnd : RandomSource)
    (st st' : AppState) (ns : list loc) (ls : list GraphLink) (b : bool) :
  uniqueLinkTriples st →
  NoDup (linkTriple (heap st) <$> ls) →
  mergeGraphData rnd st (JsArray ns) (JsArray ls) = Returns (st', b) →
  uniqueLinkTriples st'.
Proof.
  intros Hst Hls [= Hm].
  pose proof (mergeUpdater_unique_triples rnd st ns ls Hst Hls) as Hu.
  by rewrite Hm in Hu.
Qed.

Lemma mergeGraphData_keeps_triples_unique_witness :
  uniqueLinkTriples stateUN
  ∧ NoDup (linkTriple (heap stateUN) <$> [linkMemberOf])
  ∧ mergeGraphData constantRandom stateUN (JsArray [7%nat]) (JsArray [linkMemberOf])
    = Returns (stateUN_merged, true)
  ∧ uniqueLinkTriples stateUN_merged.
Proof.
  assert (H1 : uniqueLinkTriples stateUN)
    by (apply (bool_decide_unpack _); vm_compute; reflexivity).
  assert (H2 : NoDup (linkTriple (heap stateUN) <$> [linkMemberOf]))
    by (apply (bool_decide_unpack _); vm_compute; reflexivity).
  split; [done|]. split; [done|]. split; [reflexivity|].
  apply (mergeGraphData_keeps_triples_unique constantRandom stateUN
           stateUN_merged [7%nat] [linkMemberOf] true H1 H2).
  reflexivity.
Defined.

(** The value the updater leaves in [hasChanges]: [false] exactly when no
    candidate node has a new id and no candidate link a new signature, and
    then the updater returns the state it was given; [true] exactly when
    it has appended at least one node or link. *)
Lemma updater_hasChanges (rnd : RandomSource) (st st' : AppState)
    (ns : list loc) (newLinks : JsArg GraphLink) (b : bool) :
  mergeGraphData rnd st (JsArray ns) newLinks = Returns (st', b) →
  (b = false ↔
     (∀ r, r ∈ ns → node_id (heap st r) ∈ existingIds (heap st) (graphData st))
     ∧ (∀ l, l ∈ safeLinks newLinks →
              linkSig (heap st) l ∈ existingLinkSigs (heap st) (graphData st)))
  ∧ (b = false → st' = st)
  ∧ (b = true ↔
       (length (nodes (graphData st)) + length (links (graphData st))
        < length (nodes (graphData st')) + length (links (graphData st')))%nat).
Proof.
  intros [= Hm].
  assert (Hsig : ∀ l, linkSig (placedHeap rnd st ns) l = linkSig (heap st) l).
  { intros l. apply linkSig_same_ids. intros r. apply placeNodes_id. }
  assert (Hsigs : existingLinkSigs (placedHeap rnd st ns) (graphData st)
                  = existingLinkSigs (heap st) (graphData st)).
  { apply existingLinkSigs_same_ids. intros r. apply placeNodes_id. }
  destruct (mergeUpdater_cases rnd st ns newLinks) as [(Hn & Hl & Heq)|Heq];
    rewrite Heq in Hm; injection Hm as <- <-.
  - assert (Hst : {| heap := placedHeap rnd st ns; graphData := graphData st |} = st).
    { unfold placedHeap. rewrite Hn. simpl. by destruct st. }
    split; [|split].
    + split; [intros _|done]. split.
      * intros r Hr. destruct (decide (node_id (heap st r)
                                         ∈ existingIds (heap st) (graphData st)))
          as [|Hnot]; [done|].
        exfalso. eapply (filter_nil_not_elem_of _ _ r Hn); done.
      * intros l Hin. rewrite <- Hsig, <- Hsigs.
        destruct (decide (linkSig (placedHeap rnd st ns) l
                          ∈ existingLinkSigs (placedHeap rnd st ns) (graphData st)))
          as [|Hnot]; [done|].
        exfalso. eapply (filter_nil_not_elem_of _ _ l Hl); done.
    + done.
    + simpl. split; [done|lia].
  - assert (Hgrow : uniqueNewNodes (heap st) (graphData st) ns ≠ []
                    ∨ uniqueNewLinks (placedHeap rnd st ns) (graphData st)
                        (safeLinks newLinks) ≠ []).
    { unfold mergeUpdater in Heq. case_decide as Hd; [discriminate|].
      destruct (decide (uniqueNewNodes (heap st) (graphData st) ns = []))
        as [En|En]; [|by left].
      right. intros El. apply Hd. by rewrite En, El. }
    split; [|split].
    + split; [done|]. intros [Hns Hls]. exfalso.
      destruct Hgrow as [Hg|Hg]; apply Hg; apply filter_none.
      * intros r Hr Hnot. apply Hnot. auto.
      * intros l Hin Hnot. apply Hnot. rewrite Hsig, Hsigs. auto.
    + done.
    + simpl. rewrite !length_app. split; [intros _|done].
      destruct Hgrow as [Hg|Hg].
      * destruct (uniqueNewNodes (heap st) (graphData st) ns); [done|simpl; lia].
      * destruct (uniqueNewLinks _ _ _); [done|simpl; lia].
Qed.

(** X3.  What a merge does to the store, and what its caller is told.  The
    updater leaves the state (heap and graph) as it found it exactly when
    no candidate node has a new id and no candidate link a new signature;
    in every other case the graph grows by at least one node or link.  The
    flag the caller receives is not a reliable sign of it: it can be [true]
    only if the graph grew, and when React runs the updater after the call
    has returned the flag is [false] whether the graph grew or not. *)
Theorem mergeGraphData_growth (rnd : RandomSource) (st st' : AppState)
    (ns : list loc) (newLinks : JsArg GraphLink) (b : bool) :
  mergeGraphData rnd st (JsArray ns) newLinks = Returns (st', b) →
  (st' = st ↔
     (∀ r, r ∈ ns → node_id (heap st r) ∈ existingIds (heap st) (graphData st))
     ∧ (∀ l, l ∈ safeLinks newLinks →
              linkSig (heap st) l ∈ existingLinkSigs (heap st) (graphData st)))
  ∧ (st' ≠ st ↔
       (length (nodes (graphData st)) + length (links (graphData st))
        < length (nodes (graphData st')) + length (links (graphData st')))%nat)
  ∧ (∀ run, mergeGraphData_call run rnd st (JsArray ns) newLinks = Returns true →
       (length (nodes (graphData st)) + length (links (graphData st))
        < length (nodes (graphData st')) + length (links (graphData st')))%nat)
  ∧ mergeGraphData_call AtRender rnd st (JsArray ns) newLinks = Returns false.
Proof.
  intros Hm.
  destruct (updater_hasChanges rnd st st' ns newLinks b Hm) as (Hf & Hsame & Ht).
  assert (Hcases : b = false ∨ b = true) by (destruct b; auto).
  split; [|split; [|split]].
  - split.
    + intros ->. apply Hf. destruct Hcases as [?|Hb]; [done|].
      apply Ht in Hb. lia.
    + intros Hnone. apply Hsame. by apply Hf.
  - split.
    + intros Hne. apply Ht. destruct Hcases as [Hb|?]; [|done].
      by apply Hsame in Hb.
    + intros Hlt ->. lia.
  - intros [|] Hcall; unfold mergeGraphData_call in Hcall; [discriminate|].
    rewrite Hm in Hcall. injection Hcall as ->. by apply Ht.
  - reflexivity.
Qed.

Lemma mergeGraphData_growth_witness :
  mergeGraphData constantRandom stateUN (JsArray [7%nat]) (JsArray [linkMemberOf])
    = Returns (stateUN_merged, true)
  ∧ (stateUN_merged ≠ stateUN ↔
       (length (nodes (graphData stateUN)) + length (links (graphData stateUN))
        < length (nodes (graphData stateUN_merged))
          + length (links (graphData stateUN_merged)))%nat)
  ∧ mergeGraphData_call AtRender constantRandom stateUN (JsArray [7%nat])
      (JsArray [linkMemberOf]) = Returns false.
Proof.
  split; [reflexivity|].
  pose proof (mergeGraphData_growth constantRandom stateUN stateUN_merged
                [7%nat] (JsArray [linkMemberOf]) true eq_refl)
    as (_ & H2 & _ & H4).
  split; [exact H2|exact H4].
Defined.

Lemma assign_xy_same h r vx vy :
  node_x (assign_xy h r vx vy r) = Some vx
  ∧ node_y (assign_xy h r vx vy r) = Some vy.
Proof. unfold assign_xy, heap_set. by rewrite decide_True. Qed.

(** The rounded [c + (r - 0.5) * 50] stays within 25 of [c], bounds
    included, for the two centres the code uses. *)
Lemma jitter_bounds rnd (r : Q) :
  roundsToDouble rnd → (0 <= r)%Q → (r < 1)%Q →
  (375 <= jitter rnd 400 r)%Q ∧ (jitter rnd 400 r <= 425)%Q
  ∧ (275 <= jitter rnd 300 r)%Q ∧ (jitter rnd 300 r <= 325)%Q.
Proof.
  intros [Hmono Hexact] H0 H1.
  repeat (apply Forall_cons in Hexact as [? Hexact]).
  unfold jitter.
  pose proof (Hmono (-1 # 2)%Q (r - (1 # 2))%Q ltac:(lra)) as Ha1.
  pose proof (Hmono (r - (1 # 2))%Q (1 # 2)%Q ltac:(lra)) as Ha2.
  set (a := toDouble rnd (r - (1 # 2))%Q) in *.
  pose proof (Hmono (-25)%Q (a * 50)%Q ltac:(lra)) as Hb1.
  pose proof (Hmono (a * 50)%Q 25%Q ltac:(lra)) as Hb2.
  set (b := toDouble rnd (a * 50)%Q) in *.
  pose proof (Hmono 375%Q (400 + b)%Q ltac:(lra)) as Hx1.
  pose proof (Hmono (400 + b)%Q 425%Q ltac:(lra)) as Hx2.
  pose proof (Hmono 275%Q (300 + b)%Q ltac:(lra)) as Hy1.
  pose proof (Hmono (300 + b)%Q 325%Q ltac:(lra)) as Hy2.
  repeat split; lra.
Qed.

Lemma placeNodes_nearCentre rnd rs : ∀ k h r,
  unitRandom rnd → roundsToDouble rnd → r ∈ rs →
  nearCentre (placeNodes rnd k h rs r).
Proof.
  induction rs as [|r0 rs IH]; intros k h r Hrnd Hround Hr; simpl.
  - by apply elem_of_nil in Hr.
  - destruct (decide (r ∈ rs)) as [Hin|Hnot]; [by apply IH|].
    apply elem_of_cons in Hr as [->|Hr]; [|done].
    rewrite placeNodes_other by done.
    destruct (assign_xy_same h r0
                (jitter rnd 400 (random rnd (2 * k)%nat))
                (jitter rnd 300 (random rnd (2 * k + 1)%nat))) as [Hx Hy].
    eexists _, _. split; [exact Hx|]. split; [exact Hy|].
    destruct (Hrnd (2 * k)%nat) as [? ?].
    destruct (Hrnd (2 * k + 1)%nat) as [? ?].
    destruct (jitter_bounds rnd (random rnd (2 * k)%nat)) as (? & ? & _); [done..|].
    destruct (jitter_bounds rnd (random rnd (2 * k + 1)%nat))
      as (_ & _ & ? & ?); [done..|].
    done.
Qed.

(** X4.  When [Math.random] returns values in [[0, 1)] and the arithmetic
    rounds as double arithmetic does (monotonically, and leaving a double
    as it is), every node a merge appends has been given a position within
    25 units of the centre [(400, 300)], the bounds included:
    [375 <= x <= 425] and [275 <= y <= 325].  The upper bounds are not
    strict: a draw just below 1 is rounded up to them. *)
Theorem mergeGraphData_places_near_centre (rnd : RandomSource)
    (st st' : AppState) (ns : list loc) (newLinks : JsArg GraphLink)
    (b : bool) (r : loc) :
  unitRandom rnd →
  roundsToDouble rnd →
  mergeGraphData rnd st (JsArray ns) newLinks = Returns (st', b) →
  r ∈ nodes (graphData st') →
  r ∉ nodes (graphData st) →
  nearCentre (heap st' r).
Proof.
  intros Hrnd Hround [= Hm] Hin Hnot.
  assert (Hst : st' = (mergeUpdater rnd st ns newLinks).1) by (by rewrite Hm).
  rewrite Hst, mergeUpdater_nodes in Hin. rewrite Hst, mergeUpdater_heap.
  apply elem_of_app in Hin as [Hin|Hin]; [done|].
  unfold placedHeap. by apply placeNodes_nearCentre.
Qed.

Lemma mergeGraphData_places_near_centre_witness :
  unitRandom constantRandom
  ∧ roundsToDouble constantRandom
  ∧ mergeGraphData constantRandom stateUN (JsArray [7%nat]) (JsArray [linkMemberOf])
    = Returns (stateUN_merged, true)
  ∧ 7%nat ∈ nodes (graphData stateUN_merged)
  ∧ (7%nat ∉ nodes (graphData stateUN))
  ∧ nearCentre (heap stateUN_merged 7%nat).
Proof.
  assert (H1 : unitRandom constantRandom).
  { intros k. unfold constantRandom. split; [discriminate|reflexivity]. }
  assert (H2 : roundsToDouble constantRandom).
  { split; [intros p q Hpq; exact Hpq|].
    repeat (apply List.Forall_cons; [apply Qeq_refl|]). apply List.Forall_nil. }
  assert (H3 : 7%nat ∈ nodes (graphData stateUN_merged))
    by (apply (bool_decide_unpack _); vm_compute; reflexivity).
  assert (H4 : 7%nat ∉ nodes (graphData stateUN))
    by (apply (bool_decide_unpack _); vm_compute; reflexivity).
  split; [done|]. split; [done|]. split; [reflexivity|].
  split; [done|]. split; [done|].
  apply (mergeGraphData_places_near_centre constantRandom stateUN
           stateUN_merged [7%nat] (JsArray [linkMemberOf]) true 7%nat H1 H2);
    [reflexivity|done|done].
Defined.

Lemma filter_iff_on {A} (P1 P2 : A → Prop)
    `{!∀ x, Decision (P1 x), !∀ x, Decision (P2 x)} (l : list A) :
  (∀ x, x ∈ l → P1 x ↔ P2 x) → filter P1 l = filter P2 l.
Proof.
  induction l as [|a l IH]; intros Hiff; [done|].
  assert (Ha : P1 a ↔ P2 a) by (apply Hiff; left).
  assert (Hl : filter P1 l = filter P2 l)
    by (apply IH; intros x Hx; apply Hiff; by right).
  destruct (decide (P1 a)).
  - rewrite !filter_cons_True by tauto. by rewrite Hl.
  - rewrite !filter_cons_False by tauto. done.
Qed.

Lemma mergeBatch_updater st rnd ns ls :
  mergeBatch st (rnd, ns, ls) = (mergeUpdater rnd st ns (JsArray ls)).1.
Proof.
  unfold mergeBatch. simpl. by destruct (mergeUpdater rnd st ns (JsArray ls)).
Qed.

Lemma mergeBatch_same_ids st batch r :
  node_id (heap (mergeBatch st batch) r) = node_id (heap st r).
Proof.
  destruct batch as [[rnd ns] ls]. rewrite mergeBatch_updater.
  apply mergeUpdater_same_ids.
Qed.

Lemma mergeBatch_nodes st rnd ns ls :
  nodes (graphData (mergeBatch st (rnd, ns, ls)))
  = nodes (graphData st) ++ uniqueNewNodes (heap st) (graphData st) ns.
Proof. rewrite mergeBatch_updater. apply mergeUpdater_nodes. Qed.

Lemma mergeBatch_links st rnd ns ls :
  nodes (graphData (mergeBatch st (rnd, ns, ls)))
  = nodes (graphData st) ++ uniqueNewNodes (heap st) (graphData st) ns
  ∧ links (graphData (mergeBatch st (rnd, ns, ls)))
    = links (graphData st) ++ uniqueNewLinks (heap st) (graphData st) ls.
Proof.
  split; [apply mergeBatch_nodes|].
  rewrite mergeBatch_updater, mergeUpdater_links. f_equal. simpl.
  unfold uniqueNewLinks.
  rewrite (existingLinkSigs_same_ids (heap st) (placedHeap rnd st ns))
    by (intros r; apply placeNodes_id).
  apply list_filter_iff. intros l.
  by rewrite (linkSig_same_ids (heap st) (placedHeap rnd st ns))
    by (intros r; apply placeNodes_id).
Qed.

(** X5.  Splitting a batch changes nothing when its two halves share no
    node id and no link signature: merging the first half and then the
    second leaves the same graph (the same node array and the same link
    array) as merging both at once. *)
Theorem mergeGraphData_split_batch (rndA rndB rndAB : RandomSource)
    (st : AppState) (nsA nsB : list loc) (lsA lsB : list GraphLink) :
  (∀ a b, a ∈ nsA → b ∈ nsB → node_id (heap st a) ≠ node_id (heap st b)) →
  (∀ l m, l ∈ lsA → m ∈ lsB → linkSig (heap st) l ≠ linkSig (heap st) m) →
  graphData (mergeAll st [(rndA, nsA, lsA); (rndB, nsB, lsB)])
  = graphData (mergeAll st [(rndAB, nsA ++ nsB, lsA ++ lsB)]).
Proof.
  intros Hns Hls. unfold mergeAll. simpl.
  set (st1 := mergeBatch st (rndA, nsA, lsA)).
  assert (Hids : ∀ r, node_id (heap st1 r) = node_id (heap st r))
    by (intros r; apply mergeBatch_same_ids).
  destruct (mergeBatch_links st rndA nsA lsA) as [Hn1 Hl1]. fold st1 in Hn1, Hl1.
  destruct (mergeBatch_links st1 rndB nsB lsB) as [Hn2 Hl2].
  destruct (mergeBatch_links st rndAB (nsA ++ nsB) (lsA ++ lsB)) as [Hn Hl].
  assert (Hnodes : uniqueNewNodes (heap st1) (graphData st1) nsB
                   = uniqueNewNodes (heap st) (graphData st) nsB).
  { unfold uniqueNewNodes. apply filter_iff_on. intros b Hb.
    rewrite Hids, (existingIds_same_ids (heap st) (heap st1) Hids).
    unfold existingIds.
    rewrite !not_elem_of_list_to_set, Hn1, fmap_app, not_elem_of_app.
    split; [tauto|]. intros Hold. split; [done|].
    intros (a & Heq & Ha)%list_elem_of_fmap.
    apply list_elem_of_filter in Ha as [_ Ha]. by apply (Hns a b). }
  assert (Hlinks : uniqueNewLinks (heap st1) (graphData st1) lsB
                   = uniqueNewLinks (heap st) (graphData st) lsB).
  { unfold uniqueNewLinks. apply filter_iff_on. intros m Hm.
    rewrite (linkSig_same_ids (heap st) (heap st1) Hids),
      (existingLinkSigs_same_ids (heap st) (heap st1) Hids).
    unfold existingLinkSigs.
    rewrite !not_elem_of_list_to_set, Hl1, fmap_app, not_elem_of_app.
    split; [tauto|]. intros Hold. split; [done|].
    intros (l & Heq & Hl')%list_elem_of_fmap.
    apply list_elem_of_filter in Hl' as [_ Hl']. by apply (Hls l m). }
  destruct (graphData (mergeBatch st1 (rndB, nsB, lsB))) as [n2 l2].
  destruct (graphData (mergeBatch st (rndAB, nsA ++ nsB, lsA ++ lsB))) as [n l].
  simpl in *. subst n2 l2 n l.
  rewrite Hn1, Hl1, Hnodes, Hlinks. unfold uniqueNewNodes, uniqueNewLinks.
  by rewrite !filter_app, !app_assoc.
Qed.

Lemma mergeGraphData_split_batch_witness :
  (∀ a b, a ∈ [7%nat] → b ∈ [8%nat] →
          node_id (heap stateVessel a) ≠ node_id (heap stateVessel b))
  ∧ (∀ l m : GraphLink, l ∈ [] → m ∈ [linkMemberOf] →
          linkSig (heap stateVessel) l ≠ linkSig (heap stateVessel) m)
  ∧ graphData (mergeAll stateVessel
                 [(constantRandom, [7%nat], []);
                  (constantRandom, [8%nat], [linkMemberOf])])
    = graphData (mergeAll stateVessel
                   [(constantRandom, [7%nat] ++ [8%nat], [] ++ [linkMemberOf])]).
Proof.
  assert (H1 : ∀ a b, a ∈ [7%nat] → b ∈ [8%nat] →
                 node_id (heap stateVessel a) ≠ node_id (heap stateVessel b)).
  { intros a b ->%list_elem_of_singleton ->%list_elem_of_singleton.
    vm_compute. discriminate. }
  assert (H2 : ∀ l m : GraphLink, l ∈ [] → m ∈ [linkMemberOf] →
                 linkSig (heap stateVessel) l ≠ linkSig (heap stateVessel) m).
  { intros l m Hl. by apply elem_of_nil in Hl. }
  split; [done|]. split; [done|].
  apply (mergeGraphData_split_batch constantRandom constantRandom constantRandom
           stateVessel [7%nat] [8%nat] [] [linkMemberOf] H1 H2).
Defined.

(** X6.  Ingestion is append-only over any sequence of merges: the node
    array and the link array the sequence started from are prefixes of the
    final ones, every node object of the starting graph is untouched at the
    end, and no object ever changes its id. *)
Theorem mergeAll_append_only (batches : list Batch) (st : AppState) :
  nodes (graphData st) `prefix_of` nodes (graphData (mergeAll st batches))
  ∧ links (graphData st) `prefix_of` links (graphData (mergeAll st batches))
  ∧ (∀ r, r ∈ nodes (graphData st) → heap (mergeAll st batches) r = heap st r)
  ∧ (∀ r, node_id (heap (mergeAll st batches) r) = node_id (heap st r)).
Proof.
  revert st. induction batches as [|[[rnd ns] ls] batches IH]; intros st.
  - simpl. repeat split; done.
  - change (mergeAll st ((rnd, ns, ls) :: batches))
      with (mergeAll (mergeBatch st (rnd, ns, ls)) batches).
    set (st1 := mergeBatch st (rnd, ns, ls)).
    destruct (IH st1) as (Hn & Hl & Hobj & Hid).
    destruct (mergeBatch_links st rnd ns ls) as [Hn1 Hl1]. fold st1 in Hn1, Hl1.
    assert (Hobj1 : ∀ r, r ∈ nodes (graphData st) → heap st1 r = heap st r).
    { intros r Hr. unfold st1. rewrite mergeBatch_updater, mergeUpdater_heap.
      unfold placedHeap. apply placeNodes_other.
      unfold uniqueNewNodes. rewrite list_elem_of_filter. intros [Hnot _].
      apply Hnot. unfold existingIds.
      rewrite elem_of_list_to_set, list_elem_of_fmap. eauto. }
    split; [|split; [|split]].
    + etrans; [|exact Hn]. rewrite Hn1. by apply prefix_app_r.
    + etrans; [|exact Hl]. rewrite Hl1. by apply prefix_app_r.
    + intros r Hr. rewrite Hobj; [by apply Hobj1|].
      rewrite Hn1. apply elem_of_app. by left.
    + intros r. rewrite Hid. apply mergeBatch_same_ids.
Qed.

(** ** The filtered view, continued *)

Lemma filter_all {A} (P : A → Prop) `{∀ x, Decision (P x)} (l : list A) :
  filter P l = l ↔ ∀ x, x ∈ l → P x.
Proof.
  split.
  - intros Heq x Hx. rewrite <- Heq in Hx. by apply list_elem_of_filter in Hx as [? _].
  - induction l as [|a l IH]; intros Hall; [done|].
    rewrite filter_cons_True by (apply Hall; left).
    f_equal. apply IH. intros x Hx. apply Hall. by right.
Qed.

Lemma keepLink_resolves f st l :
  keepLink f st l ↔
    (∃ r, r ∈ filteredNodes f st
          ∧ node_id (heap st r) = endpointId (heap st) (link_source l))
    ∧ (∃ r, r ∈ filteredNodes f st
            ∧ node_id (heap st r) = endpointId (heap st) (link_target l)).
Proof. unfold keepLink. by rewrite !findNodeById_is_Some. Qed.

(** X7.  With the type filter on [ALL] and the ontology layer shown, the
    view shows every node, and it shows every link exactly when the graph
    has no dangling link: the links it hides are the dangling ones. *)
Theorem unfiltered_view_hides_dangling_links (s : string) (st : AppState) :
  filteredNodes (mkFilters ALL true s) st = nodes (graphData st)
  ∧ (filteredLinks (mkFilters ALL true s) st = links (graphData st)
     ↔ noDanglingLinks st)
  ∧ (∀ l, l ∈ links (graphData st) →
       (l ∈ filteredLinks (mkFilters ALL true s) st
        ↔ resolves st (link_source l) ∧ resolves st (link_target l))).
Proof.
  assert (Hn : filteredNodes (mkFilters ALL true s) st = nodes (graphData st)).
  { unfold filteredNodes. by apply filter_all. }
  assert (Hk : ∀ l, keepLink (mkFilters ALL true s) st l
                    ↔ resolves st (link_source l) ∧ resolves st (link_target l)).
  { intros l. rewrite keepLink_resolves, Hn. done. }
  split; [done|]. split.
  - unfold filteredLinks. rewrite filter_all. unfold noDanglingLinks.
    split; intros H l Hl; apply Hk; by apply H.
  - intros l Hl. unfold filteredLinks. rewrite list_elem_of_filter, Hk. tauto.
Qed.

(** X8.  With the ontology layer hidden, whatever the type filter, the
    view holds no Class node, and both endpoints of every link it shows are
    ids of non-Class nodes of the graph. *)
Theorem hidden_ontology_layer_hides_classes (f : ViewFilters) (st : AppState) :
  showOntology f = false →
  (∀ r, r ∈ filteredNodes f st → node_type (heap st r) ≠ Class)
  ∧ (∀ l, l ∈ filteredLinks f st →
       (∃ r, r ∈ nodes (graphData st) ∧ node_type (heap st r) ≠ Class
             ∧ node_id (heap st r) = endpointId (heap st) (link_source l))
       ∧ (∃ r, r ∈ nodes (graphData st) ∧ node_type (heap st r) ≠ Class
               ∧ node_id (heap st r) = endpointId (heap st) (link_target l))).
Proof.
  intros Hso.
  assert (Hnodes : ∀ r, r ∈ filteredNodes f st →
                     r ∈ nodes (graphData st) ∧ node_type (heap st r) ≠ Class).
  { intros r Hr. unfold filteredNodes in Hr.
    apply list_elem_of_filter in Hr as [Hkeep Hin]. split; [done|].
    intros Hc. unfold keepNode in Hkeep.
    by rewrite Hso, (bool_decide_eq_true_2 _ Hc) in Hkeep. }
  split; [intros r Hr; by apply Hnodes|].
  intros l Hl. unfold filteredLinks in Hl.
  apply list_elem_of_filter in Hl as [Hkeep _].
  apply keepLink_resolves in Hkeep as [(r1 & Hr1 & Hid1) (r2 & Hr2 & Hid2)].
  destruct (Hnodes r1 Hr1), (Hnodes r2 Hr2). split; eauto.
Qed.

Lemma hidden_ontology_layer_hides_classes_witness :
  showOntology (mkFilters ALL false "") = false
  ∧ (∀ r, r ∈ filteredNodes (mkFilters ALL false "") statePersonOrg →
          node_type (heap statePersonOrg r) ≠ Class).
Proof.
  split; [reflexivity|].
  apply (hidden_ontology_layer_hides_classes (mkFilters ALL false "")
           statePersonOrg).
  reflexivity.
Defined.

Lemma keepNode_same_type f node node' :
  node_type node' = node_type node → keepNode f node' = keepNode f node.
Proof. unfold keepNode. by intros ->. Qed.

(** X9.  A merge never takes anything out of the current view: for any
    filters, the filtered nodes before the merge are a prefix of the
    filtered nodes after it, and every link shown before is shown after. *)
Theorem merge_only_extends_the_view (f : ViewFilters) (rnd : RandomSource)
    (st st' : AppState) (newNodes : JsArg loc) (newLinks : JsArg GraphLink)
    (b : bool) :
  mergeGraphData rnd st newNodes newLinks = Returns (st', b) →
  filteredNodes f st `prefix_of` filteredNodes f st'
  ∧ (∀ l, l ∈ filteredLinks f st → l ∈ filteredLinks f st').
Proof.
  intros Hm. destruct newNodes as [ns| | |]; simpl in Hm; try discriminate.
  injection Hm as Hm.
  assert (Hst : st' = (mergeUpdater rnd st ns newLinks).1) by (by rewrite Hm).
  assert (Hids : ∀ r, node_id (heap st' r) = node_id (heap st r))
    by (intros r; rewrite Hst; apply mergeUpdater_same_ids).
  assert (Hty : ∀ r, node_type (heap st' r) = node_type (heap st r)).
  { intros r. rewrite Hst, mergeUpdater_heap. apply placeNodes_type. }
  assert (Hpre : filteredNodes f st `prefix_of` filteredNodes f st').
  { assert (Hn : nodes (graphData st')
                 = nodes (graphData st)
                   ++ uniqueNewNodes (heap st) (graphData st) ns)
      by (rewrite Hst; apply mergeUpdater_nodes).
    unfold filteredNodes. rewrite Hn, filter_app.
    rewrite (list_filter_iff (λ r, keepNode f (heap st' r) = true)
               (λ r, keepNode f (heap st r) = true))
      by (intros r; by rewrite (keepNode_same_type f _ _ (Hty r))).
    by apply prefix_app_r. }
  split; [done|].
  intros l Hl. unfold filteredLinks in *.
  apply list_elem_of_filter in Hl as [Hkeep Hin].
  apply list_elem_of_filter. split.
  - apply keepLink_resolves in Hkeep as [(r1 & Hr1 & Hid1) (r2 & Hr2 & Hid2)].
    apply keepLink_resolves.
    rewrite !(endpointId_same_ids (heap st) (heap st') Hids).
    split; [exists r1|exists r2]; rewrite Hids;
      (split; [by eapply elem_of_prefix|done]).
  - assert (Hls : links (graphData st')
                  = links (graphData st)
                    ++ uniqueNewLinks (placedHeap rnd st ns) (graphData st)
                         (safeLinks newLinks))
      by (rewrite Hst; apply mergeUpdater_links).
    rewrite Hls. apply elem_of_app. by left.
Qed.

Lemma merge_only_extends_the_view_witness :
  mergeGraphData constantRandom stateUN (JsArray [7%nat]) (JsArray [linkMemberOf])
    = Returns (stateUN_merged, true)
  ∧ filteredNodes personFilter stateUN `prefix_of`
      filteredNodes personFilter stateUN_merged
  ∧ (∀ l, l ∈ filteredLinks personFilter stateUN →
          l ∈ filteredLinks personFilter stateUN_merged).
Proof.
  split; [reflexivity|].
  apply (merge_only_extends_the_view personFilter constantRandom stateUN
           stateUN_merged (JsArray [7%nat]) (JsArray [linkMemberOf]) true).
  reflexivity.
Defined.

(** ** The enrichment functions, continued *)





Lemma markOntologyLink_idemp ctx l :
  markOntologyLink ctx (markOntologyLink ctx l) = markOntologyLink ctx l.
Proof. done. Qed.

(** X12.  The post-processing of [extractKnowledgeGraph] is idempotent: fed
    its own result as a reply, with the same class ids, it returns that
    result unchanged, adding no link and changing no flag. *)
Theorem extractKnowledgeGraph_idempotent (apiKey : option string) (h : Heap)
    (ctx : list string) (reply : ModelReply) (kg : Fragment) :
  extractKnowledgeGraph apiKey h ctx reply = Returns kg →
  extractKnowledgeGraph apiKey h ctx
    (Parsed (JsArray (frag_nodes kg)) (JsArray (frag_links kg))) = Returns kg.
Proof.
  intros Hkg.
  assert (Hfixed : ∀ r, r ∈ frag_nodes kg →
                     extractLinkStep h (frag_links kg) r = frag_links kg).
  { intros r Hr.
    destruct (decide (node_type (h r) = "")) as [He|Hne];
      [by apply extractLinkStep_untyped|].
    apply extractLinkStep_typed.
    destruct (decide (node_type (h r) = Class)) as [Hc|Hty]; [by left|].
    right. eapply fragment_typed; eauto. }
  unfold extractKnowledgeGraph in *. destruct (initAi apiKey); [|discriminate].
  simpl.
  rewrite (forEach_fixed (extractLinkStep h)) by done.
  f_equal. destruct kg as [ns ls]. simpl in *. f_equal.
  destruct reply as [|dn dl]; [by injection Hkg as <- <-|].
  injection Hkg as _ <-.
  rewrite <- list_fmap_compose. apply list_fmap_ext. intros _ l _.
  apply markOntologyLink_idemp.
Qed.

Lemma extractKnowledgeGraph_idempotent_witness :
  extractKnowledgeGraph (Some "key") (heap stateUN) []
    (Parsed (JsArray [7%nat]) (JsArray [linkMemberOf])) = Returns fragmentUN
  ∧ extractKnowledgeGraph (Some "key") (heap stateUN) []
      (Parsed (JsArray (frag_nodes fragmentUN)) (JsArray (frag_links fragmentUN)))
    = Returns fragmentUN.
Proof.
  split; [reflexivity|].
  apply (extractKnowledgeGraph_idempotent (Some "key") (heap stateUN) []
           (Parsed (JsArray [7%nat]) (JsArray [linkMemberOf])) fragmentUN).
  reflexivity.
Defined.

Lemma mergeUpdater_nothing_offered rnd st :
  mergeUpdater rnd st [] (JsArray []) = (st, false).
Proof. unfold mergeUpdater, placedHeap. simpl. by destruct st. Qed.

(** X13.  An enrichment that fails leaves the store as it was: when the API
    key is missing or empty, when the model call throws, and when the reply
    holds neither a node array nor a link array, [analyzeArticle] returns
    the state it was given. *)
Theorem analyzeArticle_failure_keeps_state (rnd : RandomSource) (st : AppState)
    (apiKey : option string) (ctx : list string) (reply : ModelReply) :
  initAi apiKey = None
  ∨ reply = CallThrows
  ∨ (∃ dn dl, reply = Parsed dn dl
              ∧ (∀ ns, dn ≠ JsArray ns) ∧ (∀ ls, dl ≠ JsArray ls)) →
  analyzeArticle rnd st apiKey ctx reply = st.
Proof.
  unfold analyzeArticle, extractKnowledgeGraph.
  intros [Hkey|[->|(dn & dl & -> & Hdn & Hdl)]].
  - by rewrite Hkey.
  - destruct (initAi apiKey); [|done].
    unfold mergeGraphData, emptyFragment. cbn [frag_nodes frag_links].
    by rewrite mergeUpdater_nothing_offered.
  - destruct (initAi apiKey); [|done].
    assert (arrayOrEmpty dn = []) as ->
      by (destruct dn as [ns| | |]; [by destruct (Hdn ns)|done..]).
    assert (arrayOrEmpty dl = []) as ->
      by (destruct dl as [ls| | |]; [by destruct (Hdl ls)|done..]).
    unfold mergeGraphData. cbn [frag_nodes frag_links fold_left fmap list_fmap].
    by rewrite mergeUpdater_nothing_offered.
Qed.

Lemma analyzeArticle_failure_keeps_state_witness :
  (initAi (Some "key") = None
   ∨ CallThrows = CallThrows
   ∨ (∃ dn dl, CallThrows = Parsed dn dl
               ∧ (∀ ns, dn ≠ JsArray ns) ∧ (∀ ls, dl ≠ JsArray ls)))
  ∧ analyzeArticle constantRandom stateUN (Some "key") [] CallThrows = stateUN.
Proof.
  split; [right; left; reflexivity|].
  apply (analyzeArticle_failure_keeps_state constantRandom stateUN (Some "key")
           [] CallThrows).
  right. left. reflexivity.
Defined.

(** X14.  [generateOntologyLayer] looks at the first 30 nodes only: its
    result is the one it gives for that sample alone; for no nodes at all it
    returns the empty fragment whatever the model would answer; and every
    link it returns is flagged as an ontology link. *)
Theorem generateOntologyLayer_samples_thirty (apiKey : option string) (h : Heap)
    (generateContent : string → ModelReply) (currentNodes : list loc) :
  generateOntologyLayer apiKey h generateContent currentNodes
  = generateOntologyLayer apiKey h generateContent (take 30 currentNodes)
  ∧ (is_Some (initAi apiKey) →
     generateOntologyLayer apiKey h generateContent [] = Returns emptyFragment)
  ∧ (∀ kg, generateOntologyLayer apiKey h generateContent currentNodes = Returns kg →
       ∀ l, l ∈ frag_links kg → link_isOntologyLink l = Some true).
Proof.
  unfold generateOntologyLayer. split; [|split].
  - destruct (initAi apiKey); [|done].
    destruct currentNodes as [|r rest]; [done|].
    rewrite decide_False by done.
    rewrite (decide_False (P := length (take 30 (r :: rest)) = 0%nat)) by done.
    by rewrite take_take.
  - intros [key ->]. done.
  - intros kg Hkg l Hl. destruct (initAi apiKey); [|discriminate].
    case_decide; [injection Hkg as <-; by apply elem_of_nil in Hl|].
    destruct (generateContent _) as [|dn dl];
      [injection Hkg as <-; by apply elem_of_nil in Hl|].
    injection Hkg as <-. simpl in Hl.
    by apply list_elem_of_fmap in Hl as (l0 & -> & _).
Qed.


Lemma ontologyClassIds_split h tBoxNodes :
  ontologyClassIds h tBoxNodes
  = (node_id <$> STANDARD_CLASSES)
    ++ ((λ r, node_id (h r)) <$> filter (λ r, node_type (h r) = Class) tBoxNodes).
Proof.
  unfold ontologyClassIds. rewrite filter_app, fmap_app. f_equal.
  induction tBoxNodes as [|r rest IH]; [done|].
  rewrite fmap_cons. destruct (decide (node_type (h r) = Class)) as [Hc|Hc].
  - rewrite !filter_cons_True by done. rewrite !fmap_cons. by rewrite IH.
  - rewrite !filter_cons_False by done. done.
Qed.

(** X16.  In the [loadIntel] flow the class ids handed to the analysis
    always begin with the seven pre-seeded class ids, followed by the ids of
    the Class nodes of the domain ontology; so every link of an analysed
    fragment whose target is one of the seven pre-seeded classes is flagged
    as an ontology link, whatever its predicate. *)
Theorem loadIntel_flags_links_to_standard_classes (h : Heap)
    (tBoxNodes : list loc) (apiKey : option string) (reply : ModelReply)
    (kg : Fragment) :
  extractKnowledgeGraph apiKey h (ontologyClassIds h tBoxNodes) reply = Returns kg →
  ontologyClassIds h tBoxNodes
  = (node_id <$> STANDARD_CLASSES)
    ++ ((λ r, node_id (h r)) <$> filter (λ r, node_type (h r) = Class) tBoxNodes)
  ∧ (∀ l c, l ∈ frag_links kg → c ∈ node_id <$> STANDARD_CLASSES →
        link_target l = EndId c → link_isOntologyLink l = Some true).
Proof.
  intros Hkg.
  pose proof (ontologyClassIds_split h tBoxNodes) as Hids.
  split; [done|].
  intros l c Hl Hc Htgt.
  unfold extractKnowledgeGraph in Hkg. destruct (initAi apiKey); [|discriminate].
  destruct reply as [|dn dl]; injection Hkg as <-;
    [by apply elem_of_nil in Hl|].
  cbn [frag_links] in Hl. apply list_elem_of_fmap in Hl as (l0 & -> & _).
  change (link_target l0 = EndId c) in Htgt.
  cbn [link_isOntologyLink markOntologyLink]. f_equal. apply orb_true_iff. right.
  unfold includesEndpoint. apply existsb_exists. exists c. split.
  - apply list_elem_of_In. rewrite Hids. apply elem_of_app. by left.
  - rewrite Htgt. cbn [endpointIs]. by apply bool_decide_eq_true.
Qed.

Lemma loadIntel_flags_links_to_standard_classes_witness :
  extractKnowledgeGraph (Some "key") (heap stateVessel)
    (ontologyClassIds (heap stateVessel) [7%nat])
    (Parsed (JsArray [8%nat]) (JsArray [linkMemberOf]))
  = Returns
      {| frag_nodes := [8%nat];
         frag_links :=
           markOntologyLink (ontologyClassIds (heap stateVessel) [7%nat])
             <$> [linkMemberOf; typeLinkOf nodeUN] |}
  ∧ ontologyClassIds (heap stateVessel) [7%nat]
    = (node_id <$> STANDARD_CLASSES)
      ++ ((λ r, node_id (heap stateVessel r))
            <$> filter (λ r, node_type (heap stateVessel r) = Class) [7%nat]).
Proof.
  split; [reflexivity|].
  apply (loadIntel_flags_links_to_standard_classes (heap stateVessel) [7%nat]
           (Some "key") (Parsed (JsArray [8%nat]) (JsArray [linkMemberOf]))
           {| frag_nodes := [8%nat];
              frag_links :=
                markOntologyLink (ontologyClassIds (heap stateVessel) [7%nat])
                  <$> [linkMemberOf; typeLinkOf nodeUN] |}).
  reflexivity.
Defined.

(** ** fetchGlobalIntel, continued *)

Lemma pretty_N_go_dashFree x : ∀ s, dashFree s → dashFree (pretty_N_go x s).
Proof.
  induction (N.lt_wf_0 x) as [x _ IH]; intros s Hs.
  assert (x = 0 ∨ 0 < x)%N as [->|?] by lia.
  - by rewrite pretty_N_go_0.
  - rewrite pretty_N_go_step by done. apply IH.
    { by apply N.div_lt. }
    split; [|done]. unfold pretty_N_char. by repeat case_match.
Qed.

Lemma pretty_nat_dashFree (n : nat) : dashFree (pretty n).
Proof.
  unfold pretty, pretty_nat, pretty, pretty_N.
  case_decide; [by repeat split|]. by apply pretty_N_go_dashFree.
Qed.

Lemma string_app_nil s : "" +:+ s = s.
Proof. reflexivity. Qed.

Lemma string_app_cons c a s : String c a +:+ s = String c (a +:+ s).
Proof. reflexivity. Qed.

Lemma dashFree_no_dash a q : ¬ dashFree (a +:+ "-" +:+ q).
Proof.
  induction a as [|c a IH].
  - rewrite string_app_nil, string_app_cons. by intros [? _].
  - rewrite string_app_cons. intros [_ ?]. by apply IH.
Qed.

(** The part after the last dash is determined by the whole string. *)
Lemma last_field_inj a : ∀ b p q,
  dashFree p → dashFree q →
  a +:+ "-" +:+ p = b +:+ "-" +:+ q → p = q.
Proof.
  induction a as [|c a IH]; intros [|c' b] p q Hp Hq Heq.
  - by injection Heq.
  - change (String "-" p = String c' (b +:+ "-" +:+ q)) in Heq.
    injection Heq as _ ->. by destruct (dashFree_no_dash b q).
  - change (String c (a +:+ "-" +:+ p) = String "-" q) in Heq.
    injection Heq as _ <-. by destruct (dashFree_no_dash a p).
  - change (String c (a +:+ "-" +:+ p) = String c' (b +:+ "-" +:+ q)) in Heq.
    injection Heq as _ Heq. by apply (IH b).
Qed.

Lemma newsId_inj clock1 clock2 i j :
  newsId clock1 i = newsId clock2 j → i = j.
Proof.
  unfold newsId. rewrite !string_app_cons, !string_app_nil.
  intros [= Heq]. apply (inj pretty).
  by apply (last_field_inj _ _ _ _ (pretty_nat_dashFree i)
              (pretty_nat_dashFree j) Heq).
Qed.

Lemma buildArticle_fields clock response index item a :
  buildArticle clock response index item = Returns a →
  article_id a = newsId clock index
  ∧ truthy (article_title a) = true ∧ truthy (article_summary a) = true
  ∧ truthy (article_source a) = true ∧ truthy (article_riskLevel a) = true
  ∧ article_url a ≠ "".
Proof.
  unfold buildArticle.
  destruct (getProperty item "title") as [p1|]; [|discriminate].
  destruct (getProperty item "summary") as [p2|]; [|discriminate].
  destruct (getProperty item "source") as [p3|]; [|discriminate].
  destruct (getProperty item "riskLevel") as [p4|]; [|discriminate].
  destruct (getProperty item "semanticTags") as [p5|]; [|discriminate].
  cbn [mbind Completion_bind]. intros [= <-]. cbn [article_id article_title
    article_summary article_source article_riskLevel article_url].
  assert (Hor : ∀ v s, s ≠ "" → truthy (orElse v (VString s)) = true).
  { intros v s Hs. unfold orElse. destruct (truthy v) eqn:Hv; [done|].
    simpl. unfold truthyString. by rewrite bool_decide_eq_false_2. }
  split; [done|]. repeat (split; [by apply Hor|]).
  destruct (response_groundingUri response index) as [uri|]; [|done].
  unfold truthyString. case_bool_decide; simpl; done.
Qed.

(** The [k]-th article of the [map] is built from the [k]-th element, with
    the position it has in the array. *)
Lemma mapArticles_lookup clock response data : ∀ index articles k a,
  mapArticles clock response index data = Returns articles →
  articles !! k = Some a →
  ∃ item, data !! k = Some item
          ∧ buildArticle clock response (index + k) item = Returns a.
Proof.
  induction data as [|item rest IH]; intros index articles k a Hm Hk.
  - injection Hm as <-. done.
  - cbn [mapArticles] in Hm.
    destruct (buildArticle clock response index item) as [a0|] eqn:Hb;
      [|discriminate].
    destruct (mapArticles clock response (S index) rest) as [others|] eqn:Ho;
      [|discriminate].
    injection Hm as <-. destruct k as [|k]; simpl in Hk.
    + injection Hk as <-. exists item. by rewrite Nat.add_0_r.
    + destruct (IH (S index) others k a Ho Hk) as (item' & Hi & Hb').
      exists item'. split; [done|].
      by replace (index + S k)%nat with (S index + k)%nat by lia.
Qed.

(** X17.  Every article [fetchGlobalIntel] resolves with is complete: its
    title, summary, source and risk level are truthy (a missing or empty
    field of the reply is replaced by its default) and its id and url are
    not empty. *)
Theorem fetchGlobalIntel_articles_are_complete
    (JSON_parse : string → option JsValue)
    (generateContent : string → GenerateContentOutcome) (clock : Clock)
    (apiKey topic : option string) (articles : list NewsArticle)
    (a : NewsArticle) :
  fetchGlobalIntel JSON_parse generateContent clock apiKey topic
    = Returns articles →
  a ∈ articles →
  truthy (article_title a) = true ∧ truthy (article_summary a) = true
  ∧ truthy (article_source a) = true ∧ truthy (article_riskLevel a) = true
  ∧ article_id a ≠ "" ∧ article_url a ≠ "".
Proof.
  unfold fetchGlobalIntel. destruct (initAi apiKey); [|discriminate].
  destruct (fetchAttempt _ _ _ _) as [arts|e] eqn:Hat; intros [= <-] Ha.
  - unfold fetchAttempt in Hat.
    destruct (generateContent _) as [|response]; [discriminate|].
    apply list_elem_of_lookup in Ha as [k Hk].
    destruct (mapArticles_lookup _ _ _ _ _ _ _ Hat Hk) as (item & _ & Hb).
    destruct (buildArticle_fields _ _ _ _ _ Hb) as (Hid & ? & ? & ? & ? & ?).
    repeat (split; [done|]). split; [|done]. by rewrite Hid.
  - apply list_elem_of_singleton in Ha as ->. repeat split; done.
Qed.

Lemma fetchGlobalIntel_articles_are_complete_witness :
  fetchGlobalIntel parseTwoItems (λ _, ContentReturns replyWithNullItem)
    fixedClock (Some "key") None = Returns twoItemArticles
  ∧ (∀ a, a ∈ twoItemArticles →
       truthy (article_title a) = true ∧ truthy (article_summary a) = true
       ∧ truthy (article_source a) = true ∧ truthy (article_riskLevel a) = true
       ∧ article_id a ≠ "" ∧ article_url a ≠ "").
Proof.
  split; [reflexivity|]. intros a Ha.
  apply (fetchGlobalIntel_articles_are_complete parseTwoItems
           (λ _, ContentReturns replyWithNullItem) fixedClock (Some "key")
           None twoItemArticles a); [reflexivity|exact Ha].
Defined.

Lemma mapArticles_ids clock response data : ∀ index articles,
  mapArticles clock response index data = Returns articles →
  article_id <$> articles
  = newsId clock <$> seq index (length data).
Proof.
  induction data as [|item rest IH]; intros index articles Hm.
  - by injection Hm as <-.
  - cbn [mapArticles] in Hm.
    destruct (buildArticle clock response index item) as [a0|] eqn:Hb;
      [|discriminate].
    destruct (mapArticles clock response (S index) rest) as [others|] eqn:Ho;
      [|discriminate].
    injection Hm as <-. simpl. f_equal.
    + by apply buildArticle_fields in Hb as [? _].
    + by apply IH.
Qed.

(** X18.  The articles of one resolution have pairwise distinct ids, even
    when the clock returns the same time, or any times, for all of them. *)
Theorem fetchGlobalIntel_ids_are_distinct
    (JSON_parse : string → option JsValue)
    (generateContent : string → GenerateContentOutcome) (clock : Clock)
    (apiKey topic : option string) (articles : list NewsArticle) :
  fetchGlobalIntel JSON_parse generateContent clock apiKey topic
    = Returns articles →
  NoDup (article_id <$> articles).
Proof.
  unfold fetchGlobalIntel. destruct (initAi apiKey); [|discriminate].
  destruct (fetchAttempt _ _ _ _) as [arts|e] eqn:Hat; intros [= <-].
  - unfold fetchAttempt in Hat.
    destruct (generateContent _) as [|response]; [discriminate|].
    rewrite (mapArticles_ids _ _ _ _ _ Hat).
    apply NoDup_fmap_2; [|apply NoDup_seq].
    intros i j. apply newsId_inj.
  - apply NoDup_singleton.
Qed.

Lemma fetchGlobalIntel_ids_are_distinct_witness :
  fetchGlobalIntel parseTwoItems (λ _, ContentReturns replyWithNullItem)
    fixedClock (Some "key") None = Returns twoItemArticles
  ∧ length twoItemArticles = 2%nat
  ∧ NoDup (article_id <$> twoItemArticles).
Proof.
  split; [reflexivity|]. split; [reflexivity|].
  apply (fetchGlobalIntel_ids_are_distinct parseTwoItems
           (λ _, ContentReturns replyWithNullItem) fixedClock (Some "key")
           None twoItemArticles).
  reflexivity.
Defined.

(** ** The JSON-LD export *)

(** Writing a list of entries into a map one after the other: under a key
    the map ends with the value of the last entry written there. *)
Lemma fold_left_insert_lookup {A V} (key : A → string) (val : A → V)
    (l : list A) : ∀ (acc : gmap string V) (k : string),
  fold_left (λ m x, <[key x := val x]> m) l acc !! k
  = match last (filter (λ x, key x = k) l) with
    | Some x => Some (val x)
    | None => acc !! k
    end.
Proof.
  induction l as [|x l IH]; intros acc k; simpl; [done|].
  rewrite IH. destruct (decide (key x = k)) as [Hk|Hk].
  - rewrite filter_cons_True by done. rewrite last_cons.
    destruct (last (filter _ l)); [done|]. by rewrite Hk, lookup_insert_eq.
  - rewrite filter_cons_False by done.
    destruct (last (filter _ l)); [done|]. by rewrite lookup_insert_ne.
Qed.



(** ** The background queue, continued *)

Lemma elem_of_schedule e due task pending :
  e ∈ schedule due task pending ↔ e = (due, task) ∨ e ∈ pending.
Proof.
  destruct (schedule_split due task pending) as (pre & post & -> & ->).
  rewrite !elem_of_app, elem_of_cons. tauto.
Qed.


Section QueueMarks.
Variable items : list NewsArticle.
Variable latency : nat → nat.

Lemma runTask_marksPending now task rest ids tr :
  marksPending (mkLoop ((now, task) :: rest) ids tr) →
  marksPending (runTask items latency now task (mkLoop rest ids tr)).
Proof.
  intros Hinv. destruct task as [i|i article]; cbn [runTask].
  - assert (Hrest : marksPending (mkLoop rest ids tr)).
    { intros j Hj. destruct (Hinv j Hj) as (due & k & a & Hin & Hid).
      apply elem_of_cons in Hin as [[=]|Hin]. eauto 6. }
    destruct (items !! i) as [article|]; [|done].
    cbn [agenda processingIds trace].
    assert (Hnew : ∀ pending,
              (∀ e, e ∈ schedule (now + latency i) (ExtractSettles i article) rest
                    → e ∈ pending) →
              marksPending (mkLoop pending ({[article_id article]} ∪ ids)
                              (tr ++ [(now, AnalysisStarted i)]))).
    { intros pending Hsub j Hj. cbn [processingIds agenda] in *.
      apply elem_of_union in Hj as [->%elem_of_singleton|Hj].
      - exists (now + latency i)%nat, i, article. split; [|done].
        apply Hsub, elem_of_schedule. by left.
      - destruct (Hrest j Hj) as (due & k & a & Hin & Hid).
        exists due, k, a. split; [|done].
        apply Hsub, elem_of_schedule. by right. }
    case_decide; apply Hnew.
    + intros e He. apply elem_of_schedule. by right.
    + done.
  - intros j Hj. cbn [processingIds agenda] in *.
    apply elem_of_difference in Hj as [Hj Hne].
    destruct (Hinv j Hj) as (due & k & a & Hin & Hid).
    apply elem_of_cons in Hin as [[= -> -> ->]|Hin].
    + exfalso. apply Hne. by apply elem_of_singleton.
    + eauto 6.
Qed.

Lemma runLoop_marksPending fuel : ∀ s,
  marksPending s → marksPending (runLoop items latency fuel s).
Proof.
  induction fuel as [|fuel IH]; intros [pending ids tr] Hinv; [done|].
  cbn [runLoop agenda processingIds trace].
  destruct pending as [|[now task] rest]; [done|].
  apply IH. by apply runTask_marksPending.
Qed.
End QueueMarks.

(** X20.  When the queue has finished, no subject is left marked as in
    flight: every wake-up has run and [processingIds] is empty again,
    however long the calls took and whether or not subjects share an id. *)
Theorem processBackgroundQueue_clears_marks (items : list NewsArticle)
    (latency : nat → nat) :
  agenda (processBackgroundQueue items latency) = []
  ∧ processingIds (processBackgroundQueue items latency) = ∅.
Proof.
  assert (Hag : agenda (processBackgroundQueue items latency) = []).
  { unfold processBackgroundQueue, queueStart.
    destruct (decide (0 < length items)%nat) as [Hpos|Hempty].
    - change (pacingDelay 0) with 0%nat.
      by destruct (runLoop_oneTimer items latency (2 * length items) [] 0%nat
                     0%nat [] ∅ []) as (Hag & _);
        [constructor..|done|simpl; lia|].
    - assert (length items = 0%nat) as -> by lia. done. }
  split; [done|].
  assert (Hinv : marksPending (processBackgroundQueue items latency)).
  { apply runLoop_marksPending. intros i Hi. cbn in Hi. set_solver. }
  apply elem_of_equiv_empty_L. intros i Hi.
  destruct (Hinv i Hi) as (due & k & a & Hin & _).
  rewrite Hag in Hin. by apply elem_of_nil in Hin.
Qed.

(** ** Positions carried over a data update *)

(** X21.  On a data update the simulation receives one node per node of
    the view, in order, each a copy with the same id, label, kind,
    properties and pins.  A node whose id the simulation does not know is
    passed as it is; a node whose id it knows gets the position and the
    velocity of the simulated node of that id (of the last one, should the
    id occur twice), whatever position the incoming node carries. *)
Theorem simulationInput_carries_positions (simulationNodes nodes : list GraphNode)
    (k : nat) (n : GraphNode) :
  length (simulationInput simulationNodes nodes) = length nodes
  ∧ (nodes !! k = Some n →
     ∃ n', simulationInput simulationNodes nodes !! k = Some n'
       ∧ node_id n' = node_id n ∧ node_label n' = node_label n
       ∧ node_type n' = node_type n ∧ node_properties n' = node_properties n
       ∧ node_fx n' = node_fx n ∧ node_fy n' = node_fy n
       ∧ match last (filter (λ old, node_id old = node_id n) simulationNodes) with
         | Some old =>
             node_x n' = node_x old ∧ node_y n' = node_y old
             ∧ node_vx n' = node_vx old ∧ node_vy n' = node_vy old
         | None => n' = n
         end).
Proof.
  unfold simulationInput. split; [by rewrite length_fmap|].
  intros Hk. exists (carryOver (oldNodesMap simulationNodes) n).
  split; [by rewrite list_lookup_fmap, Hk|].
  unfold carryOver, oldNodesMap.
  rewrite (fold_left_insert_lookup node_id (λ old, old)), lookup_empty.
  destruct (last _) as [old|]; done.
Qed.

Lemma simulationInput_carries_positions_witness :
  [nodeUN] !! 0%nat = Some nodeUN
  ∧ ∃ n', simulationInput [standardClass "UN"] [nodeUN] !! 0%nat = Some n'
      ∧ node_id n' = node_id nodeUN ∧ node_label n' = node_label nodeUN
      ∧ node_type n' = node_type nodeUN
      ∧ node_properties n' = node_properties nodeUN
      ∧ node_fx n' = node_fx nodeUN ∧ node_fy n' = node_fy nodeUN
      ∧ match last (filter (λ old, node_id old = node_id nodeUN)
                      [standardClass "UN"]) with
        | Some old =>
            node_x n' = node_x old ∧ node_y n' = node_y old
            ∧ node_vx n' = node_vx old ∧ node_vy n' = node_vy old
        | None => n' = nodeUN
        end.
Proof.
  split; [reflexivity|].
  apply (proj2 (simulationInput_carries_positions [standardClass "UN"] [nodeUN]
                  0%nat nodeUN)).
  reflexivity.
Defined.

(** ** The command input of the situation panel *)

Lemma trimStart_nil_iff s : trimStart s = [] ↔ forallb isTrimmed s = true.
Proof.
  induction s as [|c s IH]; simpl; [done|].
  destruct (isTrimmed c); simpl; [done|]. split; discriminate.
Qed.

Lemma trim_nil_iff s : trim s = [] ↔ forallb isTrimmed s = true.
Proof.
  unfold trim. split.
  - intros Ht. apply trimStart_nil_iff.
    destruct (trimStart s) as [|c rest] eqn:Hs; [done|]. exfalso.
    assert (Hrev : trimStart (rev (c :: rest)) = []).
    { apply (f_equal (@rev N)) in Ht. by rewrite rev_involutive in Ht. }
    apply trimStart_nil_iff in Hrev. rewrite forallb_forall in Hrev.
    assert (Hc : isTrimmed c = true) by (apply Hrev, in_rev; rewrite rev_involutive; left; done).
    revert Hs Hc. clear. induction s as [|d s IH]; simpl; [done|].
    destruct (isTrimmed d) eqn:Hd; [done|]. intros [= -> _] Hc. congruence.
  - intros Hall. apply trimStart_nil_iff in Hall. by rewrite Hall.
Qed.

(** X22.  A submission whose text is empty or made of white space only
    sends nothing and leaves the input as it is; any other text is sent as
    typed, untrimmed, and the input is cleared. *)
Theorem handleSend_ignores_blank_input (input : CodeUnits) :
  (forallb isTrimmed input = true →
     handleSend input = {| sent := None; inputAfter := input |})
  ∧ (forallb isTrimmed input = false →
     handleSend input = {| sent := Some input; inputAfter := [] |}).
Proof.
  unfold handleSend. split; intros Hall.
  - by rewrite decide_True by (by apply trim_nil_iff).
  - rewrite decide_False; [done|]. intros Ht. apply trim_nil_iff in Ht. congruence.
Qed.

Lemma handleSend_ignores_blank_input_witness :
  forallb isTrimmed [32; 9; 160]%N = true
  ∧ handleSend [32; 9; 160]%N = {| sent := None; inputAfter := [32; 9; 160]%N |}.
Proof.
  split; [reflexivity|].
  apply (proj1 (handleSend_ignores_blank_input [32; 9; 160]%N)).
  reflexivity.
Defined.

(** ** Invariants of the ingestion flow *)

(** X23.  Referential integrity is kept by a merge whose candidate links
    all point at stored or offered nodes: when the store has no dangling
    link and both endpoints of every candidate link are ids of nodes of the
    store or of the batch, the merged graph has no dangling link. *)
Theorem mergeGraphData_keeps_links_resolved (rnd : RandomSource)
    (st st' : AppState) (ns : list loc) (newLinks : JsArg GraphLink)
    (b : bool) :
  noDanglingLinks st →
  (∀ l, l ∈ safeLinks newLinks → endpointsOffered st ns l) →
  mergeGraphData rnd st (JsArray ns) newLinks = Returns (st', b) →
  noDanglingLinks st'.
Proof.
  intros Hst Hoff [= Hm].
  assert (Heq : st' = (mergeUpdater rnd st ns newLinks).1) by (by rewrite Hm).
  assert (Hids : ∀ r, node_id (heap st' r) = node_id (heap st r))
    by (intros r; rewrite Heq; apply mergeUpdater_same_ids).
  assert (Hnodes : nodes (graphData st')
                   = nodes (graphData st)
                     ++ uniqueNewNodes (heap st) (graphData st) ns)
    by (rewrite Heq; apply mergeUpdater_nodes).
  assert (Hlinks : links (graphData st')
                   = links (graphData st)
                     ++ uniqueNewLinks (placedHeap rnd st ns) (graphData st)
                          (safeLinks newLinks))
    by (rewrite Heq; apply mergeUpdater_links).
  assert (Hold : ∀ e, resolves st e → resolves st' e).
  { intros e (r & Hr & Hid). exists r. split.
    - rewrite Hnodes. apply elem_of_app. by left.
    - by rewrite Hids, (endpointId_same_ids (heap st) (heap st') Hids). }
  assert (Hcand : ∀ r, r ∈ ns →
                    ∃ r', r' ∈ nodes (graphData st')
                          ∧ node_id (heap st' r') = node_id (heap st r)).
  { intros r Hr.
    pose proof (mergeUpdater_covers_ids rnd st ns newLinks r Hr) as Hc.
    cbn zeta in Hc. rewrite <- Heq in Hc. unfold existingIds in Hc.
    rewrite elem_of_list_to_set, list_elem_of_fmap in Hc.
    destruct Hc as (r' & Hid & Hr'). exists r'. split; [done|].
    by rewrite <- Hid, Hids. }
  intros l Hl. rewrite Hlinks in Hl. apply elem_of_app in Hl as [Hl|Hl].
  - destruct (Hst l Hl). split; by apply Hold.
  - apply list_elem_of_filter in Hl as [_ Hl].
    assert (Hres : ∀ e, e = link_source l ∨ e = link_target l → resolves st' e).
    { intros e He. destruct (Hoff l Hl e He) as (r & [Hr|Hr] & Hid).
      - apply Hold. by exists r.
      - destruct (Hcand r Hr) as (r' & Hr' & Hid'). exists r'. split; [done|].
        by rewrite Hid', Hid, (endpointId_same_ids (heap st) (heap st') Hids). }
    split; apply Hres; auto.
Qed.

Lemma mergeGraphData_keeps_links_resolved_witness :
  noDanglingLinks stateUN
  ∧ (∀ l, l ∈ safeLinks (JsArray [typeLinkOf nodeUN]) →
          endpointsOffered stateUN [7%nat] l)
  ∧ mergeGraphData constantRandom stateUN (JsArray [7%nat])
      (JsArray [typeLinkOf nodeUN])
    = Returns (stateAfter stateUN
                 (mergeGraphData constantRandom stateUN (JsArray [7%nat])
                    (JsArray [typeLinkOf nodeUN])), true)
  ∧ noDanglingLinks (stateAfter stateUN
                       (mergeGraphData constantRandom stateUN (JsArray [7%nat])
                          (JsArray [typeLinkOf nodeUN]))).
Proof.
  assert (H1 : noDanglingLinks stateUN).
  { intros l Hl. by apply elem_of_nil in Hl. }
  assert (H2 : ∀ l, l ∈ safeLinks (JsArray [typeLinkOf nodeUN]) →
                 endpointsOffered stateUN [7%nat] l).
  { intros l ->%list_elem_of_singleton e [->| ->].
    - exists 7%nat. split; [right; left|reflexivity].
    - exists 1%nat. split; [left; right; left|reflexivity]. }
  split; [done|]. split; [done|]. split; [reflexivity|].
  apply (mergeGraphData_keeps_links_resolved constantRandom stateUN _ [7%nat]
           (JsArray [typeLinkOf nodeUN]) true H1 H2).
  reflexivity.
Defined.

(** X24.  The analysis flow keeps typed, up to the signature, the nodes
    that carry a type: if every node of the store whose type is neither
    [Class] nor the empty string has a stored link with the signature of an
    [rdf:type] link that leaves it, the same holds after [analyzeArticle],
    whatever the reply and whether or not the call succeeds.  A reply node
    whose type is the empty string is merged without such a link, which is
    why the property leaves those nodes out. *)
Theorem analyzeArticle_keeps_nodes_typed (rnd : RandomSource) (st : AppState)
    (apiKey : option string) (ctx : list string) (reply : ModelReply) :
  typedBySignature st →
  typedBySignature (analyzeArticle rnd st apiKey ctx reply).
Proof.
  intros Hst. unfold analyzeArticle.
  destruct (extractKnowledgeGraph apiKey (heap st) ctx reply) as [kg|e] eqn:Hkg;
    [|done].
  unfold mergeGraphData.
  destruct (mergeUpdater rnd st (frag_nodes kg) (JsArray (frag_links kg)))
    as [st' b] eqn:Hm.
  assert (Heq : st' = (mergeUpdater rnd st (frag_nodes kg)
                         (JsArray (frag_links kg))).1) by (by rewrite Hm).
  assert (Hids : ∀ r, node_id (heap st' r) = node_id (heap st r))
    by (intros r; rewrite Heq; apply mergeUpdater_same_ids).
  assert (Hty : ∀ r, node_type (heap st' r) = node_type (heap st r)).
  { intros r. rewrite Heq, mergeUpdater_heap. apply placeNodes_type. }
  assert (Hnodes : nodes (graphData st')
                   = nodes (graphData st)
                     ++ uniqueNewNodes (heap st) (graphData st) (frag_nodes kg))
    by (rewrite Heq; apply mergeUpdater_nodes).
  assert (Hlinks : ∀ l, l ∈ links (graphData st) → l ∈ links (graphData st')).
  { intros l Hl. rewrite Heq, mergeUpdater_links. apply elem_of_app. by left. }
  intros r Hr Hnc Hne. rewrite Hty in Hnc, Hne. rewrite Hids.
  rewrite Hnodes in Hr. apply elem_of_app in Hr as [Hr|Hr].
  - destruct (Hst r Hr Hnc Hne) as (l & target & Hl & Hsig).
    exists l, target. split; [by apply Hlinks|].
    by rewrite (linkSig_same_ids (heap st) (heap st') Hids).
  - apply list_elem_of_filter in Hr as [_ Hr].
    pose proof (fragment_typed apiKey (heap st) ctx reply kg r
                  (or_introl (conj Hkg Hne)) Hr Hnc) as Hhas.
    apply hasTypeLink_true in Hhas as (l & Hl & Hsrc & Hpred).
    pose proof (mergeUpdater_covers_sigs rnd st (frag_nodes kg)
                  (JsArray (frag_links kg)) l Hl) as Hc.
    cbn zeta in Hc. rewrite <- Heq in Hc. unfold existingLinkSigs in Hc.
    rewrite elem_of_list_to_set, list_elem_of_fmap in Hc.
    destruct Hc as (l' & Hsig & Hl').
    exists l', (endpointId (heap st') (link_target l)). split; [done|].
    rewrite <- Hsig. unfold linkSig, typeSig. by rewrite Hsrc, Hpred.
Qed.

Lemma analyzeArticle_keeps_nodes_typed_witness :
  typedBySignature stateUN
  ∧ typedBySignature
      (analyzeArticle constantRandom stateUN (Some "key") []
         (Parsed (JsArray [7%nat]) (JsArray [linkMemberOf]))).
Proof.
  assert (H1 : typedBySignature stateUN).
  { intros r Hr Hnc _. exfalso. apply Hnc.
    change (nodes (graphData stateUN)) with (seq 0 7) in Hr.
    apply elem_of_seq in Hr as [_ Hr].
    do 7 (destruct r as [|r]; [reflexivity|]). lia. }
  split; [done|].
  by apply (analyzeArticle_keeps_nodes_typed constantRandom stateUN (Some "key")
              [] (Parsed (JsArray [7%nat]) (JsArray [linkMemberOf]))).
Defined.
